(** * Huffman codec of the Flask compression service (src/app.py)

    A shallow embedding of the codec functions of [app.py] and the proofs of
    the properties stated for them.

    Conventions of the embedding:
    - a Python [str] of characters is a [list ascii]; a bit-string (a [str]
      over the characters '0' and '1') is a [list bool], '0' being [false]
      and '1' being [true];
    - a Python [dict] is an association list in insertion order, with
      [dict_get] and [dict_set] written as the interpreter does them;
    - [bytes] and [bytearray] are [list byte];
    - a Python function that can raise returns a [result]; the exception
      raised is the one the interpreter raises at that place. *)

From Stdlib Require Import NArith.
From Stdlib.Strings Require Import Ascii Byte.
From stdpp Require Import base list numbers strings.

Set Default Proof Using "Type".

(** ** Exceptions *)

Inductive exn : Type :=
  | IndexError      (* list index out of range, pop from an empty list *)
  | KeyError        (* missing dict key *)
  | ValueError      (* int() of an empty literal, byte out of range, get_byte_array *)
  | OverflowError   (* int too big for to_bytes *)
  | LiteralError    (* the table bytes are not a literal of a code table *)
  | UnicodeDecodeError  (* bytes that are not text in the encoding of the file *)
  | UnicodeEncodeError  (* a character the encoding of the file does not have *)
  | OutOfFuel.      (* a loop of the model ran out of fuel: never a Python outcome *)

Inductive result (A : Type) : Type :=
  | Ok (a : A)
  | Raise (e : exn).
Arguments Ok {A} a.
Arguments Raise {A} e.

#[global] Instance result_ret : MRet result := fun A a => Ok a.
#[global] Instance result_bind : MBind result := fun A B f r =>
  match r with
  | Ok a => f a
  | Raise e => Raise e
  end.

Definition raises {A} (r : result A) : Prop := exists e, r = Raise e.

(** [mapM] for [result]: the body of a [for] loop that appends one item per
    iteration and stops at the first exception. *)
Fixpoint for_each {A B} (f : A -> result B) (l : list A) : result (list B) :=
  match l with
  | [] => Ok []
  | x :: l' => y ← f x; ys ← for_each f l'; Ok (y :: ys)
  end.

(** ** Bit-strings *)

Definition bits := list bool.

(** Binary digits of a positive number, most significant first. *)
Fixpoint pos_digits (p : positive) : bits :=
  match p with
  | xH => [true]
  | xO p' => pos_digits p' ++ [false]
  | xI p' => pos_digits p' ++ [true]
  end.

(** [bin(n)[2:]], also the digits the format type [b] prints: "0" for zero. *)
Definition bin_digits (n : N) : bits :=
  match n with
  | N0 => [false]
  | Npos p => pos_digits p
  end.

(** [s.rjust(8, '0')], also the zero-padded minimum width of the format
    spec [08b]: digits are never cut. *)
Definition rjust8 (s : bits) : bits := replicate (8 - length s) false ++ s.

(** [f"{n:08b}"] *)
Definition format_08b (n : N) : bits := rjust8 (bin_digits n).

(** [int(s, 2)] on a bit-string: the empty string is not a literal. *)
Definition int2 (s : bits) : result N :=
  match s with
  | [] => Raise ValueError
  | _ => Ok (fold_left (fun acc (b : bool) => (2 * acc + if b then 1 else 0)%N) s 0%N)
  end.

(** [s[:-k]]: the stop index -k counts from the end and is clipped at 0;
    -0 is 0, so [s[:-0]] is empty. *)
Definition slice_to_neg {A} (s : list A) (k : nat) : list A :=
  match k with
  | 0 => take 0 s
  | _ => take (length s - k) s
  end.

(** [s[i:j]] for indices within or past the end. *)
Definition slice {A} (s : list A) (i j : nat) : list A := take (j - i) (drop i s).

(** [range(0, n, 8)] *)
Definition range_step8 (n : nat) : list nat :=
  (fun k => 8 * k) <$> seq 0 ((n + 7) / 8).

(** ** Bit packer *)

(** [[
def pad_encoded_text(encoded_text):
    extra_padding = 8 - len(encoded_text) % 8
    encoded_text = f"{encoded_text}{'0' * extra_padding}"
    padded_info = f"{extra_padding:08b}"
    return padded_info + encoded_text
]] *)
Definition extra_padding_of (encoded_text : bits) : nat :=
  8 - length encoded_text mod 8.

Definition pad_encoded_text (encoded_text : bits) : bits :=
  let extra_padding := extra_padding_of encoded_text in
  let encoded_text := encoded_text ++ replicate extra_padding false in
  let padded_info := format_08b (N.of_nat extra_padding) in
  padded_info ++ encoded_text.

(** [bytearray.append(v)]: the value must be in range(0, 256). *)
Definition bytearray_item (v : N) : result byte :=
  match Byte.of_N v with
  | Some b => Ok b
  | None => Raise ValueError
  end.

(** [[
def get_byte_array(padded_encoded_text):
    if len(padded_encoded_text) % 8 != 0:
        raise ValueError("Encoded text length is not a multiple of 8.")
    byte_array = bytearray()
    for i in range(0, len(padded_encoded_text), 8):
        byte = padded_encoded_text[i:i+8]
        byte_array.append(int(byte, 2))
    return byte_array
]] *)
Definition get_byte_array (padded_encoded_text : bits) : result (list byte) :=
  if decide (length padded_encoded_text mod 8 ≠ 0) then Raise ValueError
  else
    for_each (fun i =>
                let byte := slice padded_encoded_text i (i + 8) in
                v ← int2 byte; bytearray_item v)
             (range_step8 (length padded_encoded_text)).

(** [[
def remove_padding(padded_encoded_text):
    padding_info = padded_encoded_text[:8]
    extra_padding = int(padding_info, 2)
    encoded_text = padded_encoded_text[8:]
    return encoded_text[:-extra_padding]
]] *)
Definition remove_padding (padded_encoded_text : bits) : result bits :=
  let padding_info := take 8 padded_encoded_text in
  extra_padding ← int2 padding_info;
  let encoded_text := drop 8 padded_encoded_text in
  Ok (slice_to_neg encoded_text (N.to_nat extra_padding)).

(** ** Dictionaries and lists as the interpreter has them *)

Section Dict.
Context {K V : Type} `{EqDecision K}.

(** [d.get(k)]: the value stored under [k], if any. *)
Fixpoint dict_get (d : list (K * V)) (k : K) : option V :=
  match d with
  | [] => None
  | (k', v) :: d' => if decide (k' = k) then Some v else dict_get d' k
  end.

(** [d[k] = v]: an existing key keeps its place, a new key goes last. *)
Fixpoint dict_set (d : list (K * V)) (k : K) (v : V) : list (K * V) :=
  match d with
  | [] => [(k, v)]
  | (k', v') :: d' =>
      if decide (k' = k) then (k', v) :: d' else (k', v') :: dict_set d' k v
  end.
End Dict.

(** [l[i]] *)
Definition getitem {A} (l : list A) (i : nat) : result A :=
  match l !! i with
  | Some x => Ok x
  | None => Raise IndexError
  end.

(** [l[i] = x] *)
Definition setitem {A} (l : list A) (i : nat) (x : A) : result (list A) :=
  if decide (i < length l) then Ok (<[i := x]> l) else Raise IndexError.

(** [l.pop()]: the last item and the list without it. *)
Definition list_pop {A} (l : list A) : result (A * list A) :=
  match rev l with
  | [] => Raise IndexError
  | x :: r => Ok (x, rev r)
  end.

(** A [for] loop that threads a state and stops at the first exception. *)
Fixpoint for_fold {A S} (f : S -> A -> result S) (l : list A) (s : S) : result S :=
  match l with
  | [] => Ok s
  | x :: l' => s' ← f s x; for_fold f l' s'
  end.

(** ** Frequency analyzer *)

(** [Counter(text)]: one entry per distinct character, in order of first
    occurrence, counting its occurrences. *)
Definition build_frequency_dict (text : list ascii) : list (ascii * nat) :=
  fold_left (fun d c => dict_set d c (default 0 (dict_get d c) + 1)) text [].

(** ** Tree builder *)

(** [[
class HuffmanNode:
    def __init__(self, char, freq):
        self.char = char
        self.freq = freq
        self.left = None
        self.right = None
    def __lt__(self, other):
        return self.freq < other.freq
]] *)
#[warnings="-register-all"]
Inductive HuffmanNode : Type :=
  mkNode (char : option ascii) (freq : nat) (left right : option HuffmanNode).

Definition char (n : HuffmanNode) : option ascii := let (c, _, _, _) := n in c.
Definition freq (n : HuffmanNode) : nat := let (_, f, _, _) := n in f.
Definition left (n : HuffmanNode) : option HuffmanNode := let (_, _, l, _) := n in l.
Definition right (n : HuffmanNode) : option HuffmanNode := let (_, _, _, r) := n in r.

(** [HuffmanNode(char, freq)] *)
Definition new_node (c : option ascii) (f : nat) : HuffmanNode := mkNode c f None None.

Definition node_lt (self other : HuffmanNode) : bool := freq self <? freq other.

(** *** heapq, on a list of nodes compared with [__lt__]

    The loops carry a fuel that bounds their iterations; the fuel given by
    the callers is never used up ([siftdown_ok], [siftup_ok],
    [merge_loop_ok]). *)

(** [[
def _siftdown(heap, startpos, pos):
    newitem = heap[pos]
    while pos > startpos:
        parentpos = (pos - 1) >> 1
        parent = heap[parentpos]
        if newitem < parent:
            heap[pos] = parent
            pos = parentpos
            continue
        break
    heap[pos] = newitem
]] *)
Fixpoint siftdown_loop (fuel : nat) (heap : list HuffmanNode)
    (startpos pos : nat) (newitem : HuffmanNode) : result (list HuffmanNode) :=
  if decide (startpos < pos) then
    match fuel with
    | 0 => Raise OutOfFuel
    | S fuel' =>
        let parentpos := (pos - 1) / 2 in
        parent ← getitem heap parentpos;
        if node_lt newitem parent then
          heap ← setitem heap pos parent;
          siftdown_loop fuel' heap startpos parentpos newitem
        else setitem heap pos newitem
    end
  else setitem heap pos newitem.

Definition siftdown (heap : list HuffmanNode) (startpos pos : nat)
    : result (list HuffmanNode) :=
  newitem ← getitem heap pos;
  siftdown_loop pos heap startpos pos newitem.

(** [[
def _siftup(heap, pos):
    endpos = len(heap)
    startpos = pos
    newitem = heap[pos]
    childpos = 2*pos + 1
    while childpos < endpos:
        rightpos = childpos + 1
        if rightpos < endpos and not heap[childpos] < heap[rightpos]:
            childpos = rightpos
        heap[pos] = heap[childpos]
        pos = childpos
        childpos = 2*pos + 1
    heap[pos] = newitem
    _siftdown(heap, startpos, pos)
]] *)
Fixpoint siftup_loop (fuel : nat) (heap : list HuffmanNode)
    (endpos pos childpos : nat) : result (list HuffmanNode * nat) :=
  if decide (childpos < endpos) then
    match fuel with
    | 0 => Raise OutOfFuel
    | S fuel' =>
        let rightpos := childpos + 1 in
        childpos ←
          (if decide (rightpos < endpos) then
             c ← getitem heap childpos;
             r ← getitem heap rightpos;
             Ok (if negb (node_lt c r) then rightpos else childpos)
           else Ok childpos);
        child ← getitem heap childpos;
        heap ← setitem heap pos child;
        siftup_loop fuel' heap endpos childpos (2 * childpos + 1)
    end
  else Ok (heap, pos).

Definition siftup (heap : list HuffmanNode) (pos : nat) : result (list HuffmanNode) :=
  let endpos := length heap in
  let startpos := pos in
  newitem ← getitem heap pos;
  '(heap, pos) ← siftup_loop endpos heap endpos pos (2 * pos + 1);
  heap ← setitem heap pos newitem;
  siftdown heap startpos pos.

(** [[
def heappush(heap, item):
    heap.append(item)
    _siftdown(heap, 0, len(heap)-1)
]] *)
Definition heappush (heap : list HuffmanNode) (item : HuffmanNode)
    : result (list HuffmanNode) :=
  let heap := heap ++ [item] in
  siftdown heap 0 (length heap - 1).

(** [[
def heappop(heap):
    lastelt = heap.pop()
    if heap:
        returnitem = heap[0]
        heap[0] = lastelt
        _siftup(heap, 0)
        return returnitem
    return lastelt
]] The result is the item returned and the heap left. *)
Definition heappop (heap : list HuffmanNode) : result (HuffmanNode * list HuffmanNode) :=
  '(lastelt, heap) ← list_pop heap;
  match heap with
  | [] => Ok (lastelt, heap)
  | _ :: _ =>
      returnitem ← getitem heap 0;
      heap ← setitem heap 0 lastelt;
      heap ← siftup heap 0;
      Ok (returnitem, heap)
  end.

(** [[
def heapify(x):
    n = len(x)
    for i in reversed(range(n//2)):
        _siftup(x, i)
]] *)
Definition heapify (x : list HuffmanNode) : result (list HuffmanNode) :=
  let n := length x in
  for_fold siftup (rev (seq 0 (n / 2))) x.

(** [[
def build_huffman_tree(frequency):
    priority_queue = [HuffmanNode(char, freq) for char, freq in frequency.items()]
    heapq.heapify(priority_queue)
    while len(priority_queue) > 1:
        left = heapq.heappop(priority_queue)
        right = heapq.heappop(priority_queue)
        merged = HuffmanNode(None, left.freq + right.freq)
        merged.left = left
        merged.right = right
        heapq.heappush(priority_queue, merged)
    return priority_queue[0]
]] *)
Fixpoint merge_loop (fuel : nat) (priority_queue : list HuffmanNode)
    : result (list HuffmanNode) :=
  if decide (1 < length priority_queue) then
    match fuel with
    | 0 => Raise OutOfFuel
    | S fuel' =>
        '(left, priority_queue) ← heappop priority_queue;
        '(right, priority_queue) ← heappop priority_queue;
        let merged := mkNode None (freq left + freq right) (Some left) (Some right) in
        priority_queue ← heappush priority_queue merged;
        merge_loop fuel' priority_queue
    end
  else Ok priority_queue.

Definition build_huffman_tree (frequency : list (ascii * nat)) : result HuffmanNode :=
  let priority_queue := (fun '(c, f) => new_node (Some c) f) <$> frequency in
  priority_queue ← heapify priority_queue;
  priority_queue ← merge_loop (length priority_queue) priority_queue;
  getitem priority_queue 0.

(** ** Code table generator *)

(** [[
def build_huffman_codes(node, code="", codes=None):
    if codes is None:
        codes = {}
    if node:
        if node.char is not None:
            codes[node.char] = code
        build_huffman_codes(node.left, code + "0", codes)
        build_huffman_codes(node.right, code + "1", codes)
    return codes
]] The recursion is on a node that is not [None]; a child that is [None]
    leaves the table as it is. *)
Fixpoint build_huffman_codes_from (node : HuffmanNode) (code : bits)
    (codes : list (ascii * bits)) : list (ascii * bits) :=
  match node with
  | mkNode c _ l r =>
      let codes := match c with
                   | Some ch => dict_set codes ch code
                   | None => codes
                   end in
      let codes := match l with
                   | Some n => build_huffman_codes_from n (code ++ [false]) codes
                   | None => codes
                   end in
      match r with
      | Some n => build_huffman_codes_from n (code ++ [true]) codes
      | None => codes
      end
  end.

Definition build_huffman_codes (node : HuffmanNode) : list (ascii * bits) :=
  build_huffman_codes_from node [] [].

(** ** Encoding and decoding *)

(** [huffman_codes[char]] *)
Definition code_of (huffman_codes : list (ascii * bits)) (c : ascii) : result bits :=
  match dict_get huffman_codes c with
  | Some code => Ok code
  | None => Raise KeyError
  end.

(** [[
def encode_text(text, huffman_codes):
    return ''.join(huffman_codes[char] for char in text)
]] *)
Definition encode_text (text : list ascii) (huffman_codes : list (ascii * bits))
    : result bits :=
  parts ← for_each (code_of huffman_codes) text;
  Ok (concat parts).

(** [{code: char for char, code in huffman_codes.items()}] *)
Definition reverse_codes (huffman_codes : list (ascii * bits)) : list (bits * ascii) :=
  fold_left (fun d '(c, code) => dict_set d code c) huffman_codes [].

(** [[
def decode_text(encoded_text, huffman_codes):
    current_code = ""
    decoded_text = ""
    reverse_huffman_codes = {code: char for char, code in huffman_codes.items()}
    for bit in encoded_text:
        current_code += bit
        if current_code in reverse_huffman_codes:
            character = reverse_huffman_codes[current_code]
            decoded_text += character
            current_code = ""
    return decoded_text
]] [decode_loop] is the [for] loop; it returns both variables at its end. *)
Fixpoint decode_loop (reverse_huffman_codes : list (bits * ascii))
    (encoded_text : bits) (current_code : bits) (decoded_text : list ascii)
    : bits * list ascii :=
  match encoded_text with
  | [] => (current_code, decoded_text)
  | bit :: rest =>
      let current_code := current_code ++ [bit] in
      match dict_get reverse_huffman_codes current_code with
      | Some character =>
          decode_loop reverse_huffman_codes rest [] (decoded_text ++ [character])
      | None => decode_loop reverse_huffman_codes rest current_code decoded_text
      end
  end.

Definition decode_text (encoded_text : bits) (huffman_codes : list (ascii * bits))
    : result (list ascii) :=
  let reverse_huffman_codes := reverse_codes huffman_codes in
  Ok (decode_loop reverse_huffman_codes encoded_text [] []).2.

(** The candidate code left in [current_code] when the loop ends. *)
Definition decode_leftover (encoded_text : bits) (huffman_codes : list (ascii * bits))
    : bits :=
  (decode_loop (reverse_codes huffman_codes) encoded_text [] []).1.

(** ** Container codec *)

(** The two library calls that serialize the code table,
    [str(huffman_codes).encode('utf-8')] and
    [ast.literal_eval(bytes.decode('utf-8'))], are parameters of the codec. *)
Class TableCodec : Type := {
  table_to_bytes : list (ascii * bits) -> list byte;
  table_of_bytes : list byte -> result (list (ascii * bits))
}.

(** What the codec functions rely on: a table written by [str] is read back
    by [ast.literal_eval]. A table is a dict: its keys are distinct. *)
Definition codec_reads_back (C : TableCodec) : Prop :=
  forall codes,
    NoDup codes.*1 -> table_of_bytes (table_to_bytes codes) = Ok codes.

Definition byte_of_N (n : N) : byte := default "000"%byte (Byte.of_N (n mod 256)).

(** [n.to_bytes(4, 'big')] *)
Definition to_bytes4_big (n : N) : result (list byte) :=
  if decide (n < 2 ^ 32)%N then
    Ok [byte_of_N (n / 2 ^ 24); byte_of_N (n / 2 ^ 16); byte_of_N (n / 2 ^ 8); byte_of_N n]
  else Raise OverflowError.

(** [int.from_bytes(bs, 'big')] *)
Definition from_bytes_big (bs : list byte) : N :=
  fold_left (fun acc b => (acc * 256 + Byte.to_N b)%N) bs 0%N.

(** [bin(byte)[2:].rjust(8, '0')] *)
Definition byte_bits (b : byte) : bits := rjust8 (bin_digits (Byte.to_N b)).

Section Container.
Context {C : TableCodec}.

(** [compress_file], from the text read from the input file to the bytes
    written to the output file. The read itself, [text = file.read()] on a
    file opened in text mode, is [read_text] below, and [compress_file_io]
    is the function from the bytes of the input file. *)
Definition compress_file (text : list ascii) : result (list byte) :=
  let frequency := build_frequency_dict text in
  huffman_tree ← build_huffman_tree frequency;
  let huffman_codes := build_huffman_codes huffman_tree in
  encoded_text ← encode_text text huffman_codes;
  let padded_encoded_text := pad_encoded_text encoded_text in
  byte_array ← get_byte_array padded_encoded_text;
  let huffman_codes_str := table_to_bytes huffman_codes in
  prefix ← to_bytes4_big (N.of_nat (length huffman_codes_str));
  Ok (prefix ++ huffman_codes_str ++ byte_array).

(** The three reads of [decompress_file]: [file.read(4)],
    [file.read(codes_length)] and the byte-by-byte loop to the end. A read
    past the end returns what is left. *)
Definition read_container (file : list byte) : N * list byte * list byte :=
  let codes_length := from_bytes_big (take 4 file) in
  let file := drop 4 file in
  let huffman_codes_str := take (N.to_nat codes_length) file in
  let file := drop (N.to_nat codes_length) file in
  (codes_length, huffman_codes_str, file).

(** [decompress_file], from the bytes of the input file to the text
    written to the output file. The write itself, on a file opened in text
    mode, is [write_text] below, and [decompress_file_io] is the function
    to the bytes of the output file. *)
Definition decompress_file (file : list byte) : result (list ascii) :=
  let '(codes_length, huffman_codes_str, payload) := read_container file in
  huffman_codes ← table_of_bytes huffman_codes_str;
  let bit_string := concat (byte_bits <$> payload) in
  encoded_text ← remove_padding bit_string;
  decode_text encoded_text huffman_codes.
End Container.

(** *** A table codec to run the container functions with

    One entry per symbol: the symbol's byte, its code as the characters '0'
    and '1', and a semicolon. *)
Definition bit_byte (b : bool) : byte := if b then "1"%byte else "0"%byte.

Definition plain_entry (e : ascii * bits) : list byte :=
  byte_of_ascii e.1 :: (bit_byte <$> e.2) ++ [";"%byte].

Definition plain_to_bytes (codes : list (ascii * bits)) : list byte :=
  concat (plain_entry <$> codes).

Fixpoint plain_parse (bs : list byte) (cur : option (ascii * bits))
    (acc : list (ascii * bits)) : result (list (ascii * bits)) :=
  match bs with
  | [] => match cur with
          | None => Ok acc
          | Some _ => Raise LiteralError
          end
  | b :: bs' =>
      match cur with
      | None => plain_parse bs' (Some (ascii_of_byte b, [])) acc
      | Some (c, code) =>
          if Byte.eqb b "0"%byte then plain_parse bs' (Some (c, code ++ [false])) acc
          else if Byte.eqb b "1"%byte then plain_parse bs' (Some (c, code ++ [true])) acc
          else if Byte.eqb b ";"%byte then plain_parse bs' None (acc ++ [(c, code)])
          else Raise LiteralError
      end
  end.

Definition plain_codec : TableCodec := {|
  table_to_bytes := plain_to_bytes;
  table_of_bytes := fun bs => plain_parse bs None []
|}.

(** ** Text-mode file input and output

    [compress_file] reads its input through [open(input_path, 'r')] and
    [decompress_file] writes its output through [open(output_path, 'w')]:
    the bytes of the file are decoded, and the text encoded, with the
    encoding of the locale, and newlines are translated. The encoding and
    [os.linesep] belong to the platform: they are parameters. *)

Definition CR : ascii := "013"%char.
Definition LF : ascii := "010"%char.

(** Reading with [newline=None]: '\r\n' and a '\r' alone are read as
    '\n'. *)
Fixpoint universal_newlines (s : list ascii) : list ascii :=
  match s with
  | [] => []
  | c :: s' =>
      if decide (c = CR) then
        match s' with
        | c' :: s'' =>
            if decide (c' = LF) then LF :: universal_newlines s''
            else LF :: universal_newlines s'
        | [] => [LF]
        end
      else c :: universal_newlines s'
  end.

(** Writing with [newline=None]: each '\n' is written as [os.linesep]. *)
Definition write_newlines (linesep : list ascii) (s : list ascii) : list ascii :=
  s ≫= fun c => if decide (c = LF) then linesep else [c].

Class TextEnv : Type := {
  text_decode : list byte -> result (list ascii);   (* bytes.decode(encoding) *)
  text_encode : list ascii -> result (list byte);   (* str.encode(encoding) *)
  linesep : list ascii                              (* os.linesep *)
}.

(** [[
    with open(input_path, 'r') as file:
        text = file.read()
]] *)
Definition read_text `{E : TextEnv} (file : list byte) : result (list ascii) :=
  s ← text_decode file; Ok (universal_newlines s).

(** [[
        with open(output_path, 'w') as output_file:
            output_file.write(decompressed_text)
]] *)
Definition write_text `{E : TextEnv} (text : list ascii) : result (list byte) :=
  text_encode (write_newlines linesep text).

(** [compress_file] from the bytes of the input file. *)
Definition compress_file_io `{E : TextEnv} `{C : TableCodec} (input : list byte)
    : result (list byte) :=
  text ← read_text input; compress_file text.

(** [decompress_file] to the bytes of the output file. *)
Definition decompress_file_io `{E : TextEnv} `{C : TableCodec} (input : list byte)
    : result (list byte) :=
  decompressed_text ← decompress_file input; write_text decompressed_text.

(** *** A platform to run the file functions with: the codec 'ascii' and
    the line separator of POSIX *)

(** [bytes.decode('ascii')]: a byte of 128 or more is not ASCII. *)
Definition ascii_decode (bs : list byte) : result (list ascii) :=
  for_each (fun b => if (Byte.to_N b <? 128)%N then Ok (ascii_of_byte b)
                     else Raise UnicodeDecodeError) bs.

(** [str.encode('ascii')] *)
Definition ascii_encode (s : list ascii) : result (list byte) :=
  for_each (fun c => if (N_of_ascii c <? 128)%N then Ok (byte_of_ascii c)
                     else Raise UnicodeEncodeError) s.

Definition ascii_posix : TextEnv := {|
  text_decode := ascii_decode;
  text_encode := ascii_encode;
  linesep := [LF]
|}.

(** ** Vocabulary of the properties *)

(** A property of a child that may be [None]. *)
Definition opt_all (P : HuffmanNode -> Prop) (o : option HuffmanNode) : Prop :=
  match o with
  | Some n => P n
  | None => True
  end.

(** Induction on a node through its two optional children. *)
Fixpoint HuffmanNode_children_ind (P : HuffmanNode -> Prop)
    (step : forall c f l r, opt_all P l -> opt_all P r -> P (mkNode c f l r))
    (n : HuffmanNode) : P n :=
  match n with
  | mkNode c f l r =>
      step c f l r
        (match l return opt_all P l with
         | Some n' => HuffmanNode_children_ind P step n'
         | None => I
         end)
        (match r return opt_all P r with
         | Some n' => HuffmanNode_children_ind P step n'
         | None => I
         end)
  end.

(** The shape of the nodes [build_huffman_tree] makes: a leaf carries a
    character and no child, a merged node carries no character and two
    children. *)
Inductive huffman_tree : HuffmanNode -> Prop :=
  | huffman_leaf c f : huffman_tree (mkNode (Some c) f None None)
  | huffman_merged f l r :
      huffman_tree l -> huffman_tree r ->
      huffman_tree (mkNode None f (Some l) (Some r)).

(** The characters of a node and of the nodes below it, in the order
    [build_huffman_codes] visits them. *)
Fixpoint leaves (n : HuffmanNode) : list ascii :=
  match n with
  | mkNode c _ l r =>
      option_list c
      ++ match l with Some n' => leaves n' | None => [] end
      ++ match r with Some n' => leaves n' | None => [] end
  end.

(** The path to each character, '0' to the left and '1' to the right,
    after the path [code] to the node. *)
Fixpoint tree_codes (n : HuffmanNode) (code : bits) : list (ascii * bits) :=
  match n with
  | mkNode c _ l r =>
      match c with Some ch => [(ch, code)] | None => [] end
      ++ match l with Some n' => tree_codes n' (code ++ [false]) | None => [] end
      ++ match r with Some n' => tree_codes n' (code ++ [true]) | None => [] end
  end.

(** No symbol's code is a prefix of a different symbol's code. *)
Definition prefix_free (codes : list (ascii * bits)) : Prop :=
  forall c1 c2 b1 b2,
    dict_get codes c1 = Some b1 -> dict_get codes c2 = Some b2 ->
    c1 <> c2 -> ~ b1 `prefix_of` b2.

(** A table that [decode_text] inverts: one code per symbol, no empty code,
    and no code a prefix of the code of another symbol. *)
Definition decodable (codes : list (ascii * bits)) : Prop :=
  NoDup codes.*1
  /\ (forall c b, (c, b) ∈ codes -> b <> [])
  /\ (forall c1 b1 c2 b2,
         (c1, b1) ∈ codes -> (c2, b2) ∈ codes -> b1 `prefix_of` b2 -> c1 = c2).

(** Compression returns a container and decompression gives the text back. *)
Definition round_trip (C : TableCodec) (text : list ascii) : Prop :=
  exists container,
    compress_file text = Ok container /\ decompress_file container = Ok text.

(** Compression of the bytes of a file returns a container, and
    decompression of the container writes the same bytes. *)
Definition round_trip_io (E : TextEnv) (C : TableCodec) (file : list byte) : Prop :=
  exists container,
    compress_file_io file = Ok container
    /\ decompress_file_io container = Ok file.

(** *** Vocabulary of the heap order *)

(** The weight at index [i] of a heap (0 past the end). *)
Definition key (heap : list HuffmanNode) (i : nat) : nat :=
  from_option freq 0 (heap !! i).

(** The order heapq keeps, from index [k] on: no item whose parent is at
    [k] or after is less than its parent, the parent of [i] being at
    [(i - 1) / 2]. From 0 this is the heap invariant. *)
Definition heap_from (k : nat) (heap : list HuffmanNode) : Prop :=
  forall i, 0 < i < length heap -> k <= (i - 1) / 2 ->
            key heap ((i - 1) / 2) <= key heap i.

(** [pos] is [startpos] or below it in the heap. *)
Inductive below (startpos : nat) : nat -> Prop :=
  | below_refl : below startpos startpos
  | below_child pos :
      0 < pos -> below startpos ((pos - 1) / 2) -> below startpos pos.

(** The state of [_siftdown]'s loop, the new item held at [pos]: the order
    holds everywhere but between [pos] and its parent, and the children of
    [pos] are not less than that parent. *)
Definition up_inv (startpos pos : nat) (heap : list HuffmanNode) : Prop :=
  (forall i, 0 < i < length heap -> startpos <= (i - 1) / 2 -> i <> pos ->
             key heap ((i - 1) / 2) <= key heap i)
  /\ (forall c, 0 < c < length heap -> (c - 1) / 2 = pos -> startpos < pos ->
                key heap ((pos - 1) / 2) <= key heap c).

(** The state of [_siftup]'s loop, the hole at [pos]: the order holds
    wherever the hole is not involved, and the children of the hole are not
    less than its parent. *)
Definition down_inv (startpos pos : nat) (heap : list HuffmanNode) : Prop :=
  (forall i, 0 < i < length heap -> startpos <= (i - 1) / 2 -> i <> pos ->
             (i - 1) / 2 <> pos -> key heap ((i - 1) / 2) <= key heap i)
  /\ (forall c, 0 < c < length heap -> (c - 1) / 2 = pos -> startpos < pos ->
                key heap ((pos - 1) / 2) <= key heap c).

(** *** Vocabulary of the tree weights *)

(** The entries a node and the nodes below it carry: character and weight
    of each node that has a character, in the order of [leaves]. *)
Fixpoint leaf_entries (n : HuffmanNode) : list (ascii * nat) :=
  match n with
  | mkNode c f l r =>
      match c with Some ch => [(ch, f)] | None => [] end
      ++ match l with Some n' => leaf_entries n' | None => [] end
      ++ match r with Some n' => leaf_entries n' | None => [] end
  end.

(** A tree as the merge loop builds it: a leaf, or a merged node whose
    weight is the sum of the weights of its children and whose left child
    is not heavier than its right child. *)
Inductive merge_tree : HuffmanNode -> Prop :=
  | merge_leaf c f : merge_tree (mkNode (Some c) f None None)
  | merge_node l r :
      merge_tree l -> merge_tree r -> freq l <= freq r ->
      merge_tree (mkNode None (freq l + freq r) (Some l) (Some r)).

(** *** Vocabulary of the frequency table and of the code lengths *)

(** The number of occurrences of [c] in [text]. *)
Fixpoint count_char (c : ascii) (text : list ascii) : nat :=
  match text with
  | [] => 0
  | x :: text' => (if decide (x = c) then 1 else 0) + count_char c text'
  end.

(** The distinct characters of [text] in the order of their first
    occurrence. *)
Fixpoint first_occurrences (text : list ascii) : list ascii :=
  match text with
  | [] => []
  | x :: text' => x :: filter (fun y => y <> x) (first_occurrences text')
  end.

(** The Kraft sum of a code table scaled by [2 ^ D]: a code of length [n]
    counts for [2 ^ (D - n)]. *)
Definition kraft_sum (D : nat) (codes : list (ascii * bits)) : nat :=
  sum_list ((fun e : ascii * bits => 2 ^ (D - length e.2)) <$> codes).

(* ================================================================== *)
(** * Properties *)

(** ** The functions on the inputs of the scenarios *)

Example pad_encoded_text_0001 :
  pad_encoded_text [false; false; false; true]
  = [false; false; false; false; false; true; false; false;
     false; false; false; true; false; false; false; false].
Proof. reflexivity. Qed.

Example build_frequency_dict_aaab :
  build_frequency_dict ["a"; "a"; "a"; "b"]%char = [("a", 3); ("b", 1)]%char.
Proof. reflexivity. Qed.

(** The heap pops 'b' (1) before 'a' (3), so 'b' goes left. *)
Example build_huffman_tree_aaab :
  build_huffman_tree [("a", 3); ("b", 1)]%char
  = Ok (mkNode None 4 (Some (new_node (Some "b"%char) 1))
                      (Some (new_node (Some "a"%char) 3))).
Proof. reflexivity. Qed.

Example build_huffman_codes_abracadabra :
  build_huffman_tree [("a", 5); ("b", 2); ("r", 2); ("c", 1); ("d", 1)]%char
    ≫= (fun tree => Ok (build_huffman_codes tree))
  = Ok [("a", [false]); ("d", [true; false; false]); ("c", [true; false; true]);
        ("r", [true; true; false]); ("b", [true; true; true])]%char.
Proof. reflexivity. Qed.

Example decode_text_0001 :
  decode_text [true; true; true; false] [("b", [false]); ("a", [true])]%char
  = Ok ["a"; "a"; "a"; "b"]%char.
Proof. reflexivity. Qed.

(** ** The [result] monad *)

Lemma bind_Ok {A B} (r : result A) (f : A -> result B) (b : B) :
  r ≫= f = Ok b -> exists a, r = Ok a /\ f a = Ok b.
Proof. destruct r as [a|e]; [intros H; by exists a | discriminate]. Qed.

Lemma Ok_bind {A B} (a : A) (f : A -> result B) : Ok a ≫= f = f a.
Proof. reflexivity. Qed.

Lemma Raise_bind {A B} (e : exn) (f : A -> result B) : Raise e ≫= f = Raise e.
Proof. reflexivity. Qed.

Lemma for_each_cons {A B} (f : A -> result B) (x : A) (l : list A) :
  for_each f (x :: l) = f x ≫= fun y => for_each f l ≫= fun ys => Ok (y :: ys).
Proof. reflexivity. Qed.

Lemma raises_Ok {A} (a : A) : ~ raises (Ok a).
Proof. intros [e He]. discriminate. Qed.

Lemma raises_Raise {A} (e : exn) : raises (@Raise A e).
Proof. by exists e. Qed.

(** ** Bit packer *)

Lemma extra_padding_range (s : bits) : 1 <= extra_padding_of s <= 8.
Proof.
  unfold extra_padding_of.
  pose proof (Nat.mod_upper_bound (length s) 8). lia.
Qed.

Lemma format_08b_count (k : nat) :
  1 <= k <= 8 ->
  length (format_08b (N.of_nat k)) = 8
  /\ int2 (format_08b (N.of_nat k)) = Ok (N.of_nat k).
Proof.
  intros Hk.
  do 9 (destruct k as [|k]; [first [lia | by split] |]). lia.
Qed.

(** C4: [pad_encoded_text] appends [8 - len(s) mod 8] filler bits, a count
    between 1 and 8 that is 8 exactly when the length is a multiple of 8,
    and puts that count in front as an 8-bit binary field; the result has
    [8 + len(s) + (8 - len(s) mod 8)] bits. *)
Theorem pad_encoded_text_layout (s : bits) :
  let k := 8 - length s mod 8 in
  (1 <= k <= 8)
  /\ (k = 8 <-> length s mod 8 = 0)
  /\ pad_encoded_text s = format_08b (N.of_nat k) ++ s ++ replicate k false
  /\ length (format_08b (N.of_nat k)) = 8
  /\ int2 (format_08b (N.of_nat k)) = Ok (N.of_nat k)
  /\ length (pad_encoded_text s) = 8 + length s + (8 - length s mod 8).
Proof.
  intros k.
  pose proof (extra_padding_range s) as Hk. unfold extra_padding_of in Hk. fold k in Hk.
  destruct (format_08b_count k Hk) as [Hlen Hint].
  split; [exact Hk |].
  split; [subst k; pose proof (Nat.mod_upper_bound (length s) 8); lia |].
  split; [reflexivity |].
  do 2 (split; [done |]).
  unfold pad_encoded_text, extra_padding_of. fold k.
  rewrite !length_app, Hlen, length_replicate. lia.
Qed.

(** C5: stripping the padding that [pad_encoded_text] added gives the
    bit-string back. *)
Theorem remove_padding_pad_encoded_text (s : bits) :
  remove_padding (pad_encoded_text s) = Ok s.
Proof.
  pose proof (extra_padding_range s) as Hk.
  destruct (format_08b_count _ Hk) as [Hlen Hint].
  unfold remove_padding, pad_encoded_text.
  set (k := extra_padding_of s) in *.
  rewrite take_app_length' by done. rewrite Hint. simpl.
  rewrite drop_app_length' by done.
  rewrite Nat2N.id. unfold slice_to_neg.
  destruct k as [|k']; [lia |].
  rewrite length_app, length_replicate.
  replace (length s + S k' - S k') with (length s) by lia.
  by rewrite take_app_length.
Qed.

(** *** Grouping into bytes *)

Lemma byte_of_chunk (c : bits) :
  length c = 8 ->
  exists b, (int2 c ≫= bytearray_item) = Ok b /\ byte_bits b = c.
Proof.
  intros Hc.
  do 8 (destruct c as [|? c]; [discriminate |]).
  destruct c; [| discriminate]. clear Hc.
  repeat match goal with x : bool |- _ => destruct x end;
    (eexists; split; reflexivity).
Qed.

Lemma range_step8_exact (n : nat) :
  range_step8 (8 * n) = (fun k => 8 * k) <$> seq 0 n.
Proof.
  unfold range_step8. f_equal. f_equal.
  symmetry. apply Nat.div_unique with 7; lia.
Qed.

Lemma group_bytes (l : bits) (n k : nat) :
  length l = 8 * (k + n) ->
  exists bs,
    for_each (fun i => int2 (slice l i (i + 8)) ≫= bytearray_item)
             ((fun j => 8 * j) <$> seq k n) = Ok bs
    /\ concat (byte_bits <$> bs) = drop (8 * k) l
    /\ length bs = n.
Proof.
  revert k. induction n as [|n IH]; intros k Hl.
  - exists []. split_and!; try done. simpl. rewrite drop_ge; [done | lia].
  - destruct (byte_of_chunk (slice l (8 * k) (8 * k + 8))) as (b & Hb & Hbits).
    { unfold slice. rewrite length_take, length_drop. lia. }
    destruct (IH (S k)) as (bs & Hbs & Hcat & Hn); [lia |].
    exists (b :: bs). split_and!.
    + change (seq k (S n)) with (k :: seq (S k) n).
      rewrite fmap_cons, for_each_cons, Hb, Ok_bind, Hbs. done.
    + rewrite fmap_cons. cbn [concat]. rewrite Hbits, Hcat. unfold slice.
      replace (8 * k + 8 - 8 * k) with 8 by lia.
      replace (8 * S k) with (8 * k + 8) by lia.
      rewrite <- drop_drop. apply take_drop.
    + simpl. by rewrite Hn.
Qed.

Lemma get_byte_array_aligned (l : bits) :
  length l mod 8 = 0 ->
  exists bs, get_byte_array l = Ok bs
             /\ concat (byte_bits <$> bs) = l
             /\ 8 * length bs = length l.
Proof.
  intros Hmod.
  assert (Hl : length l = 8 * (length l / 8)).
  { pose proof (Nat.div_mod_eq (length l) 8). lia. }
  unfold get_byte_array. rewrite decide_False by lia.
  set (n := length l / 8) in *.
  rewrite Hl, range_step8_exact.
  destruct (group_bytes l n 0) as (bs & Hbs & Hcat & Hn); [lia |].
  exists bs. split_and!; [done | by rewrite Hcat | lia].
Qed.

Lemma pad_encoded_text_aligned (s : bits) : length (pad_encoded_text s) mod 8 = 0.
Proof.
  destruct (pad_encoded_text_layout s) as (_ & _ & _ & _ & _ & ->).
  pose proof (Nat.div_mod_eq (length s) 8).
  replace (8 + length s + (8 - length s mod 8)) with ((length s / 8 + 2) * 8).
  - apply Nat.Div0.mod_mul.
  - pose proof (Nat.mod_upper_bound (length s) 8). lia.
Qed.

(** C9: [get_byte_array] raises exactly when the length of its input is not
    a multiple of 8, and it never raises on what [pad_encoded_text]
    returns. *)
Theorem get_byte_array_raises_iff :
  (forall l : bits, raises (get_byte_array l) <-> length l mod 8 <> 0)
  /\ (forall l : bits, length l mod 8 <> 0 <-> get_byte_array l = Raise ValueError)
  /\ (forall s : bits, exists bs, get_byte_array (pad_encoded_text s) = Ok bs).
Proof.
  assert (Hiff : forall l : bits,
             length l mod 8 <> 0 <-> get_byte_array l = Raise ValueError).
  { intros l. split.
    - intros H. unfold get_byte_array. by rewrite decide_True.
    - intros H Hmod. destruct (get_byte_array_aligned l Hmod) as (bs & Hbs & _).
      congruence. }
  split_and!; [| done |].
  - intros l. split.
    + intros [e He] Hmod. destruct (get_byte_array_aligned l Hmod) as (bs & Hbs & _).
      congruence.
    + intros H. apply Hiff in H. rewrite H. apply raises_Raise.
  - intros s. destruct (get_byte_array_aligned _ (pad_encoded_text_aligned s))
      as (bs & Hbs & _). by exists bs.
Qed.

(** ** Decoding *)

Lemma decode_loop_split (rev : list (bits * ascii)) (encoded : bits) :
  forall cur out cur' out',
    decode_loop rev encoded cur out = (cur', out') ->
    (cur' = cur ++ encoded /\ out' = out)
    \/ exists consumed, encoded = consumed ++ cur'
                        /\ decode_loop rev consumed cur out = ([], out').
Proof.
  induction encoded as [|bit rest IH]; intros cur out cur' out' H.
  - simpl in H. injection H as <- <-. left. by rewrite app_nil_r.
  - cbn [decode_loop] in H |- *.
    destruct (dict_get rev (cur ++ [bit])) as [ch|] eqn:Hget.
    + right. destruct (IH _ _ _ _ H) as [[-> ->] | (pre & -> & Hpre)].
      * exists [bit]. split; [done |]. cbn [decode_loop]. by rewrite Hget.
      * exists (bit :: pre). split; [done |]. cbn [decode_loop]. by rewrite Hget.
    + destruct (IH _ _ _ _ H) as [[-> ->] | (pre & -> & Hpre)].
      * left. by rewrite <- app_assoc.
      * right. exists (bit :: pre). split; [done |]. cbn [decode_loop]. by rewrite Hget.
Qed.

Lemma decode_loop_leftover (rev : list (bits * ascii)) (encoded : bits) :
  forall cur out,
    cur = [] \/ dict_get rev cur = None ->
    let cur' := (decode_loop rev encoded cur out).1 in
    cur' = [] \/ dict_get rev cur' = None.
Proof.
  induction encoded as [|bit rest IH]; intros cur out Hcur; [done |].
  cbn [decode_loop].
  destruct (dict_get rev (cur ++ [bit])) as [ch|] eqn:Hget.
  - apply IH. by left.
  - apply IH. by right.
Qed.

(** C6, as the code has it: [decode_text] never raises. The bits after the
    last matched code, a candidate that matches no entry, are dropped, and
    the text returned is the decoding of the bits before them. *)
Theorem decode_text_drops_leftover (encoded_text : bits)
    (huffman_codes : list (ascii * bits)) :
  let leftover := decode_leftover encoded_text huffman_codes in
  ~ raises (decode_text encoded_text huffman_codes)
  /\ (leftover = [] \/ dict_get (reverse_codes huffman_codes) leftover = None)
  /\ exists consumed,
       encoded_text = consumed ++ leftover
       /\ decode_leftover consumed huffman_codes = []
       /\ decode_text encoded_text huffman_codes = decode_text consumed huffman_codes.
Proof.
  intros leftover. split; [apply raises_Ok |]. split.
  - apply decode_loop_leftover. by left.
  - unfold leftover, decode_leftover, decode_text.
    destruct (decode_loop (reverse_codes huffman_codes) encoded_text [] [])
      as [cur' out'] eqn:Hloop.
    destruct (decode_loop_split _ _ _ _ _ _ Hloop) as [[-> ->] | (pre & -> & Hpre)].
    + exists []. done.
    + exists pre. rewrite Hpre. done.
Qed.

(** C6, as stated, fails: with the table {'a': '00'} the bits 001 end on the
    candidate 1, which is not empty and matches no entry, and [decode_text]
    returns 'a' without raising; so does [decompress_file] on a container
    with that table and those bits. *)
Lemma decode_text_leftover_no_error :
  let huffman_codes := [("a"%char, [false; false])] in
  let encoded_text := [false; false; true] in
  decode_leftover encoded_text huffman_codes = [true]
  /\ dict_get (reverse_codes huffman_codes) [true] = None
  /\ decode_text encoded_text huffman_codes = Ok ["a"%char]
  /\ ~ raises (decode_text encoded_text huffman_codes)
  /\ decompress_file (C := plain_codec)
       (["000"; "000"; "000"; "004"] ++ ["a"; "0"; "0"; ";"] ++ ["005"; " "])%byte
     = Ok ["a"%char].
Proof. split_and!; try reflexivity. apply raises_Ok. Qed.

(** ** Container *)

Lemma to_N_byte_of_N (n : N) : Byte.to_N (byte_of_N n) = (n mod 256)%N.
Proof.
  unfold byte_of_N. destruct (Byte.of_N (n mod 256)) as [b|] eqn:Hb.
  - by apply Byte.to_of_N.
  - apply Byte.of_N_None_iff in Hb.
    pose proof (N.mod_upper_bound n 256). lia.
Qed.

Lemma from_to_bytes4_big (n : N) (prefix : list byte) :
  to_bytes4_big n = Ok prefix ->
  length prefix = 4 /\ from_bytes_big prefix = n /\ (n < 2 ^ 32)%N.
Proof.
  unfold to_bytes4_big. case_decide as Hn; [| discriminate].
  intros [= <-]. split; [done |]. split; [| done].
  unfold from_bytes_big. cbn [fold_left]. rewrite !to_N_byte_of_N.
  change (2 ^ 32)%N with 4294967296%N in Hn.
  change (2 ^ 24)%N with 16777216%N. change (2 ^ 16)%N with 65536%N.
  change (2 ^ 8)%N with 256%N.
  pose proof (N.div_mod n 256). pose proof (N.div_mod (n / 256) 256).
  pose proof (N.div_mod (n / 65536) 256). pose proof (N.div_mod (n / 16777216) 256).
  replace (n / 65536)%N with (n / 256 / 256)%N in * by (rewrite N.Div0.div_div; done).
  replace (n / 16777216)%N with (n / 256 / 256 / 256)%N in *
    by (rewrite !N.Div0.div_div; done).
  assert (n / 256 / 256 / 256 / 256 = 0)%N as H256.
  { rewrite !N.Div0.div_div. apply N.div_small. lia. }
  lia.
Qed.

Lemma to_bytes4_big_raises (n : N) :
  ~ (n < 2 ^ 32)%N -> to_bytes4_big n = Raise OverflowError.
Proof. intros H. unfold to_bytes4_big. by rewrite decide_False. Qed.

Lemma read_container_layout (prefix tbl payload : list byte) :
  length prefix = 4 ->
  from_bytes_big prefix = N.of_nat (length tbl) ->
  read_container (prefix ++ tbl ++ payload) = (N.of_nat (length tbl), tbl, payload).
Proof.
  intros Hlen Hval. unfold read_container.
  rewrite take_app_length' by done. rewrite drop_app_length' by done.
  rewrite Hval, Nat2N.id.
  by rewrite take_app_length, drop_app_length.
Qed.

(** C7: the container that [compress_file] writes is the length of the
    serialized code table as 4 bytes, most significant first, then the table
    bytes, then the packed payload; [decompress_file] reads the 4-byte
    length, takes that many bytes as the table and all the bytes after them
    as the payload. *)
Theorem container_layout `{C : TableCodec} (text : list ascii) (container : list byte) :
  compress_file text = Ok container ->
  exists tree huffman_codes_str byte_array prefix,
    build_huffman_tree (build_frequency_dict text) = Ok tree
    /\ huffman_codes_str = table_to_bytes (build_huffman_codes tree)
    /\ (encode_text text (build_huffman_codes tree)
          ≫= fun e => get_byte_array (pad_encoded_text e)) = Ok byte_array
    /\ to_bytes4_big (N.of_nat (length huffman_codes_str)) = Ok prefix
    /\ length prefix = 4
    /\ from_bytes_big prefix = N.of_nat (length huffman_codes_str)
    /\ container = prefix ++ huffman_codes_str ++ byte_array
    /\ read_container container
       = (N.of_nat (length huffman_codes_str), huffman_codes_str, byte_array)
    /\ decompress_file container
       = (table_of_bytes huffman_codes_str ≫= fun huffman_codes =>
          remove_padding (concat (byte_bits <$> byte_array)) ≫= fun e =>
          decode_text e huffman_codes).
Proof.
  unfold compress_file. intros H.
  apply bind_Ok in H as (tree & Htree & H).
  apply bind_Ok in H as (encoded & Henc & H).
  apply bind_Ok in H as (byte_array & Hbytes & H).
  apply bind_Ok in H as (prefix & Hprefix & H).
  injection H as <-.
  destruct (from_to_bytes4_big _ _ Hprefix) as (Hlen & Hval & _).
  pose proof (read_container_layout prefix _ byte_array Hlen Hval) as Hread.
  exists tree, (table_to_bytes (build_huffman_codes tree)), byte_array, prefix.
  split_and!; try done.
  - by rewrite Henc.
  - unfold decompress_file. by rewrite Hread.
Qed.

Lemma container_layout_aaab :
  let text := ["a"; "a"; "a"; "b"]%char in
  let container := (["000"; "000"; "000"; "006"] ++ ["b"; "0"; ";"; "a"; "1"; ";"]
                    ++ ["004"; "224"])%byte in
  compress_file (C := plain_codec) text = Ok container
  /\ exists tree huffman_codes_str byte_array prefix,
       build_huffman_tree (build_frequency_dict text) = Ok tree
       /\ huffman_codes_str = plain_to_bytes (build_huffman_codes tree)
       /\ (encode_text text (build_huffman_codes tree)
             ≫= fun e => get_byte_array (pad_encoded_text e)) = Ok byte_array
       /\ to_bytes4_big (N.of_nat (length huffman_codes_str)) = Ok prefix
       /\ length prefix = 4
       /\ from_bytes_big prefix = N.of_nat (length huffman_codes_str)
       /\ container = prefix ++ huffman_codes_str ++ byte_array
       /\ read_container container
          = (N.of_nat (length huffman_codes_str), huffman_codes_str, byte_array)
       /\ decompress_file (C := plain_codec) container
          = (plain_parse huffman_codes_str None [] ≫= fun huffman_codes =>
             remove_padding (concat (byte_bits <$> byte_array)) ≫= fun e =>
             decode_text e huffman_codes).
Proof.
  split; [reflexivity |].
  apply (container_layout (C := plain_codec)). reflexivity.
Defined.

(** C10: when the first 8 bits of the bit-string read 0, [remove_padding]
    returns the empty string, so a container whose first payload byte is 0
    decompresses to the empty text whatever bytes follow, and nothing is
    raised. *)
Theorem zero_padding_count_gives_empty_text `{C : TableCodec}
    (file : list byte) (codes_length : N) (huffman_codes_str rest : list byte)
    (huffman_codes : list (ascii * bits)) :
  read_container file = (codes_length, huffman_codes_str, "000"%byte :: rest) ->
  table_of_bytes huffman_codes_str = Ok huffman_codes ->
  (forall bit_string : bits,
      int2 (take 8 bit_string) = Ok 0%N -> remove_padding bit_string = Ok [])
  /\ remove_padding (concat (byte_bits <$> "000"%byte :: rest)) = Ok []
  /\ decompress_file file = Ok [].
Proof.
  intros Hread Htable.
  assert (Hzero : forall bit_string : bits,
             int2 (take 8 bit_string) = Ok 0%N -> remove_padding bit_string = Ok []).
  { intros bit_string H. unfold remove_padding. rewrite H. done. }
  assert (Hrest : remove_padding (concat (byte_bits <$> "000"%byte :: rest)) = Ok []).
  { apply Hzero. reflexivity. }
  split_and!; try done.
  unfold decompress_file. rewrite Hread, Htable, Ok_bind, Hrest. reflexivity.
Qed.

Lemma zero_padding_count_sample :
  let file := (["000"; "000"; "000"; "003"] ++ ["a"; "1"; ";"]
               ++ ["000"; "255"; "129"])%byte in
  read_container file = (3%N, ["a"; "1"; ";"], ["000"; "255"; "129"])%byte
  /\ plain_parse ["a"; "1"; ";"]%byte None [] = Ok [("a"%char, [true])]
  /\ decompress_file (C := plain_codec) file = Ok [].
Proof.
  split; [reflexivity |]. split; [reflexivity |].
  refine (proj2 (proj2 (zero_padding_count_gives_empty_text (C := plain_codec)
    _ 3%N ["a"; "1"; ";"]%byte ["255"; "129"]%byte [("a"%char, [true])] _ _)));
    reflexivity.
Defined.

(** ** Empty and single-symbol input *)

(** C8: for the empty text the frequency table is empty, and
    [build_huffman_tree] on the empty table raises (the IndexError of
    [priority_queue[0]]) instead of returning a tree; [compress_file] raises
    with it. *)
Theorem empty_input_raises `{C : TableCodec} :
  build_frequency_dict [] = []
  /\ build_huffman_tree [] = Raise IndexError
  /\ raises (build_huffman_tree (build_frequency_dict []))
  /\ compress_file [] = Raise IndexError.
Proof. split_and!; try reflexivity. apply raises_Raise. Qed.

Lemma single_entry_code_is_empty_aux (c : ascii) (f : nat) :
  build_huffman_tree [(c, f)] = Ok (new_node (Some c) f)
  /\ build_huffman_codes (new_node (Some c) f) = [(c, [])].
Proof. by split. Qed.

(** C2, on the code: a frequency table with one entry gives a tree that is
    that one leaf, and [build_huffman_codes] gives the leaf the empty code,
    the path from the root to itself. *)
Theorem single_entry_code_is_empty (c : ascii) (f : nat) :
  build_huffman_tree [(c, f)] = Ok (new_node (Some c) f)
  /\ huffman_tree (new_node (Some c) f)
  /\ build_huffman_codes (new_node (Some c) f) = [(c, [])].
Proof.
  destruct (single_entry_code_is_empty_aux c f) as [Htree Hcodes].
  split_and!; [done | constructor | done].
Qed.

(** ** heapq keeps the items of the heap *)

Lemma delete_insert_same {A} (l : list A) (i : nat) (x : A) :
  delete i (<[i := x]> l) = delete i l.
Proof.
  revert i. induction l as [|y l IH]; intros [|i]; cbn; try done.
  f_equal. apply IH.
Qed.

Lemma insert_Permutation {A} (l : list A) (i : nat) (x : A) :
  i < length l -> <[i := x]> l ≡ₚ x :: delete i l.
Proof.
  intros Hi. rewrite <- (delete_insert_same l i x).
  apply delete_Permutation. by apply list_lookup_insert_eq.
Qed.

(** Copying the item at [j] into the hole at [i] moves the hole to [j]. *)
Lemma move_hole {A} (l : list A) (i j : nat) (y : A) :
  i <> j -> i < length l -> l !! j = Some y ->
  delete j (<[i := y]> l) ≡ₚ delete i l.
Proof.
  intros Hij Hi Hj.
  apply (Permutation_cons_inv (a := y)).
  rewrite <- (insert_Permutation l i y) by done.
  symmetry. apply delete_Permutation.
  by rewrite list_lookup_insert_ne.
Qed.

Lemma getitem_lt {A} (l : list A) (i : nat) :
  i < length l -> exists x, l !! i = Some x /\ getitem l i = Ok x.
Proof.
  intros Hi. destruct (lookup_lt_is_Some_2 l i Hi) as [x Hx].
  exists x. split; [done |]. unfold getitem. by rewrite Hx.
Qed.

Lemma setitem_lt {A} (l : list A) (i : nat) (x : A) :
  i < length l -> setitem l i x = Ok (<[i := x]> l).
Proof. intros Hi. unfold setitem. by rewrite decide_True. Qed.

Lemma siftdown_loop_ok (fuel : nat) :
  forall heap startpos pos newitem,
    pos < length heap -> pos <= startpos + fuel ->
    exists heap',
      siftdown_loop fuel heap startpos pos newitem = Ok heap'
      /\ heap' ≡ₚ newitem :: delete pos heap.
Proof.
  induction fuel as [|fuel IH]; intros heap startpos pos newitem Hpos Hfuel;
    cbn [siftdown_loop]; case_decide as Hs.
  - lia.
  - rewrite setitem_lt by done. eexists. split; [done |]. by apply insert_Permutation.
  - assert (Hparent : (pos - 1) / 2 < pos).
    { apply Nat.Div0.div_lt_upper_bound; lia. }
    destruct (getitem_lt heap ((pos - 1) / 2)) as (parent & Hlook & ->); [lia |].
    rewrite Ok_bind. destruct (node_lt newitem parent).
    + rewrite setitem_lt, Ok_bind by done.
      destruct (IH (<[pos := parent]> heap) startpos ((pos - 1) / 2) newitem)
        as (heap' & -> & Hperm); [rewrite length_insert; lia | lia |].
      exists heap'. split; [done |].
      rewrite Hperm. f_equiv. apply move_hole; [lia | done | done].
    + rewrite setitem_lt by done. eexists. split; [done |]. by apply insert_Permutation.
  - rewrite setitem_lt by done. eexists. split; [done |]. by apply insert_Permutation.
Qed.

Lemma siftdown_ok (heap : list HuffmanNode) (startpos pos : nat) :
  pos < length heap ->
  exists heap', siftdown heap startpos pos = Ok heap' /\ heap' ≡ₚ heap.
Proof.
  intros Hpos. unfold siftdown.
  destruct (getitem_lt heap pos Hpos) as (newitem & Hlook & ->). rewrite Ok_bind.
  destruct (siftdown_loop_ok pos heap startpos pos newitem) as (heap' & -> & Hperm);
    [done | lia |].
  exists heap'. split; [done |]. rewrite Hperm. symmetry. by apply delete_Permutation.
Qed.

Lemma siftup_loop_ok (fuel : nat) :
  forall heap endpos pos childpos,
    endpos = length heap -> pos < endpos -> pos < childpos ->
    endpos <= childpos + fuel ->
    exists heap' pos',
      siftup_loop fuel heap endpos pos childpos = Ok (heap', pos')
      /\ pos' < length heap' /\ length heap' = length heap
      /\ delete pos' heap' ≡ₚ delete pos heap.
Proof.
  induction fuel as [|fuel IH]; intros heap endpos pos childpos Hend Hpos Hchild Hfuel;
    cbn [siftup_loop]; case_decide as Hc.
  - lia.
  - exists heap, pos. split_and!; [done | lia | done | done].
  - assert (exists c,
               (if decide (childpos + 1 < endpos)
                then c0 ← getitem heap childpos;
                     r ← getitem heap (childpos + 1);
                     Ok (if negb (node_lt c0 r) then childpos + 1 else childpos)
                else Ok childpos) = Ok c
               /\ childpos <= c < endpos) as (c & -> & Hlo & Hhi).
    { case_decide as Hr.
      - destruct (getitem_lt heap childpos) as (c0 & _ & ->); [lia |].
        destruct (getitem_lt heap (childpos + 1)) as (r & _ & ->); [lia |].
        rewrite !Ok_bind. eexists. split; [done |].
        destruct (negb (node_lt c0 r)); lia.
      - exists childpos. split; [done | lia]. }
    rewrite Ok_bind.
    destruct (getitem_lt heap c) as (child & Hlook & ->); [lia |].
    rewrite Ok_bind, setitem_lt, Ok_bind by lia.
    destruct (IH (<[pos := child]> heap) endpos c (2 * c + 1))
      as (heap' & pos' & -> & Hpos' & Hlen & Hperm);
      [by rewrite length_insert | lia | lia | lia |].
    exists heap', pos'. rewrite length_insert in Hlen. split_and!; try done.
    rewrite Hperm. apply move_hole; [lia | lia | done].
  - exists heap, pos. split_and!; [done | lia | done | done].
Qed.

Lemma siftup_ok (heap : list HuffmanNode) (pos : nat) :
  pos < length heap ->
  exists heap', siftup heap pos = Ok heap' /\ heap' ≡ₚ heap.
Proof.
  intros Hpos. unfold siftup.
  destruct (getitem_lt heap pos Hpos) as (newitem & Hlook & ->). rewrite Ok_bind.
  destruct (siftup_loop_ok (length heap) heap (length heap) pos (2 * pos + 1))
    as (heap1 & pos1 & -> & Hpos1 & Hlen1 & Hperm1); [done | done | lia | lia |].
  rewrite Ok_bind. cbn beta iota.
  rewrite setitem_lt, Ok_bind by done.
  destruct (siftdown_ok (<[pos1 := newitem]> heap1) pos pos1)
    as (heap' & -> & Hperm); [by rewrite length_insert |].
  exists heap'. split; [done |].
  rewrite Hperm, insert_Permutation, Hperm1 by done.
  symmetry. by apply delete_Permutation.
Qed.

Lemma heappush_ok (heap : list HuffmanNode) (item : HuffmanNode) :
  exists heap', heappush heap item = Ok heap' /\ heap' ≡ₚ item :: heap.
Proof.
  unfold heappush.
  destruct (siftdown_ok (heap ++ [item]) 0 (length (heap ++ [item]) - 1))
    as (heap' & -> & Hperm); [rewrite length_app; simpl; lia |].
  exists heap'. split; [done |]. rewrite Hperm. by rewrite Permutation_app_comm.
Qed.

Lemma list_pop_ok {A} (l : list A) :
  l <> [] -> exists x l', list_pop l = Ok (x, l') /\ l = l' ++ [x].
Proof.
  intros Hl. unfold list_pop. destruct (rev l) as [|x r] eqn:Hrev.
  - destruct Hl. rewrite <- (rev_involutive l), Hrev. done.
  - exists x, (rev r). split; [done |].
    rewrite <- (rev_involutive l), Hrev. done.
Qed.

Lemma heappop_ok (heap : list HuffmanNode) :
  heap <> [] ->
  exists item heap', heappop heap = Ok (item, heap') /\ heap ≡ₚ item :: heap'.
Proof.
  intros Hne. unfold heappop.
  destruct (list_pop_ok heap Hne) as (lastelt & heap1 & -> & ->). rewrite Ok_bind.
  destruct heap1 as [|returnitem rest].
  - exists lastelt, []. done.
  - cbn [getitem lookup list_lookup]. rewrite Ok_bind.
    rewrite setitem_lt, Ok_bind by (simpl; lia). cbn [insert list_insert].
    destruct (siftup_ok (lastelt :: rest) 0) as (heap' & -> & Hperm); [simpl; lia |].
    exists returnitem, heap'. split; [done |].
    rewrite Hperm. rewrite <- Permutation_cons_append. apply Permutation_swap.
Qed.

Lemma for_fold_siftup_ok (indices : list nat) :
  forall heap,
    Forall (fun i => i < length heap) indices ->
    exists heap', for_fold siftup indices heap = Ok heap' /\ heap' ≡ₚ heap.
Proof.
  induction indices as [|i indices IH]; intros heap Hall.
  - exists heap. done.
  - apply Forall_cons in Hall as [Hi Hall]. cbn [for_fold].
    destruct (siftup_ok heap i Hi) as (heap1 & -> & Hperm1). rewrite Ok_bind.
    destruct (IH heap1) as (heap' & -> & Hperm).
    { eapply Forall_impl; [exact Hall |].
      intros j Hj. cbn beta. by rewrite (Permutation_length Hperm1). }
    exists heap'. split; [done |]. by rewrite Hperm.
Qed.

Lemma heapify_ok (x : list HuffmanNode) :
  exists heap, heapify x = Ok heap /\ heap ≡ₚ x.
Proof.
  unfold heapify. apply for_fold_siftup_ok.
  apply Forall_forall. intros i Hi.
  apply list_elem_of_In, in_rev, in_seq in Hi.
  pose proof (Nat.Div0.div_le_upper_bound (length x) 2 (length x)). lia.
Qed.

(** ** Tree builder *)

Lemma merge_loop_single (fuel : nat) (t : HuffmanNode) : merge_loop fuel [t] = Ok [t].
Proof. by destruct fuel. Qed.

Lemma merge_loop_ok (fuel : nat) :
  forall priority_queue,
    Forall huffman_tree priority_queue ->
    priority_queue <> [] ->
    length priority_queue <= S fuel ->
    exists root,
      merge_loop fuel priority_queue = Ok [root]
      /\ huffman_tree root
      /\ leaves root ≡ₚ priority_queue ≫= leaves
      /\ (1 < length priority_queue -> char root = None).
Proof.
  induction fuel as [|fuel IH]; intros pq Hall Hne Hlen.
  - destruct pq as [|t [|t' pq]]; [done | | simpl in Hlen; lia].
    exists t. rewrite Forall_singleton in Hall. rewrite merge_loop_single.
    split; [done |]. split; [done |].
    split; [cbn; by rewrite app_nil_r | simpl; lia].
  - cbn [merge_loop]. case_decide as Htwo.
    + destruct (heappop_ok pq Hne) as (l & pq1 & -> & Hp1). rewrite Ok_bind.
      assert (Hne1 : pq1 <> []).
      { intros ->. apply Permutation_length in Hp1. simpl in Hp1. lia. }
      destruct (heappop_ok pq1 Hne1) as (r & pq2 & -> & Hp2). rewrite Ok_bind.
      set (merged := mkNode None (freq l + freq r) (Some l) (Some r)).
      destruct (heappush_ok pq2 merged) as (pq3 & -> & Hp3). rewrite Ok_bind.
      rewrite Hp1, Hp2 in Hall.
      apply Forall_cons in Hall as [Hl Hall]. apply Forall_cons in Hall as [Hr Hall].
      assert (Hmerged : huffman_tree merged) by by constructor.
      assert (Hleaves : pq3 ≫= leaves ≡ₚ pq ≫= leaves).
      { rewrite Hp3, Hp1, Hp2. cbn. by rewrite !(assoc_L (++)). }
      assert (Hlen3 : S (length pq3) = length pq).
      { rewrite Hp3, Hp1, Hp2. done. }
      destruct (decide (1 < length pq3)) as [Hmore | Hone].
      * destruct (IH pq3) as (root & -> & Hroot & Hl3 & Hchar).
        { rewrite Hp3. by constructor. }
        { intros ->. simpl in Hmore. lia. }
        { lia. }
        exists root. split_and!; [done | done | by rewrite Hl3 | auto].
      * assert (pq3 = [merged]) as ->.
        { apply Permutation_singleton_r. rewrite Hp3.
          destruct pq2; [done |]. rewrite Hp3 in Hone. simpl in Hone. lia. }
        rewrite merge_loop_single. exists merged.
        split_and!; [done | done | | done].
        rewrite <- Hleaves. cbn. by rewrite !app_nil_r.
    + destruct pq as [|t [|t' pq]]; [done | | simpl in Htwo; lia].
      exists t. rewrite Forall_singleton in Hall.
      split; [done |]. split; [done |].
      split; [cbn; by rewrite app_nil_r | simpl; lia].
Qed.

Lemma build_huffman_tree_ok (frequency : list (ascii * nat)) :
  frequency <> [] ->
  exists root,
    build_huffman_tree frequency = Ok root
    /\ huffman_tree root
    /\ leaves root ≡ₚ frequency.*1
    /\ (1 < length frequency -> char root = None).
Proof.
  intros Hne. unfold build_huffman_tree.
  set (pq0 := (fun '(c, f) => new_node (Some c) f) <$> frequency).
  assert (Hall0 : Forall huffman_tree pq0).
  { subst pq0. apply Forall_fmap, Forall_forall. intros [c f] _. constructor. }
  assert (Hleaves0 : pq0 ≫= leaves = frequency.*1).
  { subst pq0. clear. induction frequency as [|[c f] fr IH]; [done |].
    cbn. f_equal. apply IH. }
  destruct (heapify_ok pq0) as (pq1 & -> & Hp1). rewrite Ok_bind.
  destruct (merge_loop_ok (length pq1) pq1) as (root & -> & Hroot & Hl & Hchar).
  { by rewrite Hp1. }
  { intros ->. apply Permutation_length in Hp1. subst pq0.
    rewrite length_fmap in Hp1. destruct frequency; done. }
  { lia. }
  rewrite Ok_bind. exists root. split_and!; [done | done | |].
  - by rewrite Hl, Hp1, Hleaves0.
  - intros Hlen. apply Hchar. rewrite Hp1. subst pq0. by rewrite length_fmap.
Qed.

(** The fuel of the loops is never used up: [build_huffman_tree] returns a
    tree, or raises the IndexError of [priority_queue[0]] on the empty
    table. *)
Lemma build_huffman_tree_total (frequency : list (ascii * nat)) :
  (frequency = [] /\ build_huffman_tree frequency = Raise IndexError)
  \/ (frequency <> [] /\ exists root, build_huffman_tree frequency = Ok root).
Proof.
  destruct frequency as [|e frequency]; [by left |]. right. split; [done |].
  destruct (build_huffman_tree_ok (e :: frequency)) as (root & Hroot & _); [done |].
  by exists root.
Qed.

(** ** Code table generator *)

Lemma dict_set_fresh {K V} `{EqDecision K} (d : list (K * V)) (k : K) (v : V) :
  k ∉ d.*1 -> dict_set d k v = d ++ [(k, v)].
Proof.
  induction d as [|[k' v'] d IH]; intros Hk; [done |].
  cbn in Hk |- *. apply not_elem_of_cons in Hk as [Hne Hk].
  rewrite decide_False by done. by rewrite IH.
Qed.

Lemma dict_get_elem_of {K V} `{EqDecision K} (d : list (K * V)) (k : K) (v : V) :
  dict_get d k = Some v -> (k, v) ∈ d.
Proof.
  induction d as [|[k' v'] d IH]; [done |]. cbn. case_decide as Hk.
  - intros [= ->]. subst. left.
  - intros H. right. by apply IH.
Qed.

Lemma dict_get_NoDup {K V} `{EqDecision K} (d : list (K * V)) (k : K) (v : V) :
  NoDup d.*1 -> (k, v) ∈ d -> dict_get d k = Some v.
Proof.
  induction d as [|[k' v'] d IH]; intros Hnd Hin; [by apply elem_of_nil in Hin |].
  cbn in Hnd. apply NoDup_cons in Hnd as [Hk' Hnd].
  cbn. apply elem_of_cons in Hin as [[= -> ->] | Hin].
  - by rewrite decide_True.
  - rewrite decide_False; [by apply IH |].
    intros ->. apply Hk'. apply list_elem_of_fmap. by exists (k, v).
Qed.

Lemma tree_codes_fst (n : HuffmanNode) : forall code, (tree_codes n code).*1 = leaves n.
Proof.
  induction n as [c f l r IHl IHr] using HuffmanNode_children_ind. intros code.
  cbn [tree_codes leaves]. rewrite !fmap_app. f_equal; [by destruct c |].
  f_equal.
  - destruct l; [apply IHl | done].
  - destruct r; [apply IHr | done].
Qed.

Lemma build_huffman_codes_from_eq (n : HuffmanNode) :
  forall code codes,
    NoDup (codes.*1 ++ leaves n) ->
    build_huffman_codes_from n code codes = codes ++ tree_codes n code.
Proof.
  induction n as [c f l r IHl IHr] using HuffmanNode_children_ind.
  intros code codes Hnd. cbn [build_huffman_codes_from tree_codes].
  cbn [leaves] in Hnd.
  set (here := match c with Some ch => [(ch, code)] | None => [] end).
  assert (Hhere : match c with
                  | Some ch => dict_set codes ch code
                  | None => codes
                  end = codes ++ here).
  { subst here. destruct c as [ch|]; [| by rewrite app_nil_r].
    apply dict_set_fresh. apply NoDup_app in Hnd as (_ & Hdisj & _).
    intros Hin. apply (Hdisj ch Hin). cbn. left. }
  rewrite Hhere.
  assert (Hfst : here.*1 = option_list c) by (subst here; by destruct c).
  rewrite <- Hfst, !(assoc_L (++)), <- fmap_app in Hnd.
  set (below_l := match l with
                  | Some n' => tree_codes n' (code ++ [false])
                  | None => []
                  end).
  assert (Hl : match l with
               | Some n' => build_huffman_codes_from n' (code ++ [false]) (codes ++ here)
               | None => codes ++ here
               end = (codes ++ here) ++ below_l).
  { subst below_l. destruct l as [n'|]; [| by rewrite app_nil_r].
    apply IHl. by apply NoDup_app in Hnd as (Hnd & _). }
  rewrite Hl.
  assert (Hfst_l : below_l.*1 = match l with Some n' => leaves n' | None => [] end).
  { subst below_l. destruct l; [apply tree_codes_fst | done]. }
  rewrite <- Hfst_l, <- fmap_app in Hnd.
  destruct r as [n'|].
  - rewrite IHr by done. by rewrite <- !(assoc_L (++)).
  - by rewrite app_nil_r, <- !(assoc_L (++)).
Qed.

Lemma build_huffman_codes_eq (n : HuffmanNode) :
  NoDup (leaves n) -> build_huffman_codes n = tree_codes n [].
Proof. intros Hnd. unfold build_huffman_codes. by rewrite build_huffman_codes_from_eq. Qed.

Lemma tree_codes_prefix (n : HuffmanNode) :
  forall code c b, (c, b) ∈ tree_codes n code -> code `prefix_of` b.
Proof.
  induction n as [ch f l r IHl IHr] using HuffmanNode_children_ind.
  intros code c b. cbn [tree_codes]. rewrite !elem_of_app. intros [H | [H | H]].
  - destruct ch; [| by apply elem_of_nil in H].
    apply list_elem_of_singleton in H as [= -> ->]. done.
  - destruct l as [n'|]; [| by apply elem_of_nil in H].
    apply IHl in H. by eapply prefix_app_l.
  - destruct r as [n'|]; [| by apply elem_of_nil in H].
    apply IHr in H. by eapply prefix_app_l.
Qed.

Lemma left_right_apart (code b1 b2 : bits) :
  code ++ [false] `prefix_of` b1 -> code ++ [true] `prefix_of` b2 ->
  ~ b1 `prefix_of` b2 /\ ~ b2 `prefix_of` b1.
Proof.
  intros [x1 ->] [x2 ->].
  split; intros [y Hy]; rewrite <- !(assoc_L (++)) in Hy;
    apply app_inv_head in Hy; discriminate.
Qed.

(** In a tree of leaves and merged nodes, two entries one of whose codes is
    a prefix of the other are entries of the same leaf. *)
Lemma tree_codes_prefix_same (n : HuffmanNode) :
  huffman_tree n ->
  forall code c1 b1 c2 b2,
    (c1, b1) ∈ tree_codes n code -> (c2, b2) ∈ tree_codes n code ->
    b1 `prefix_of` b2 -> c1 = c2.
Proof.
  induction 1 as [c f | f l r Hl IHl Hr IHr]; intros code c1 b1 c2 b2;
    cbn [tree_codes]; rewrite ?app_nil_r, ?app_nil_l.
  - intros [= -> ->]%list_elem_of_singleton [= -> ->]%list_elem_of_singleton _. done.
  - rewrite !elem_of_app. intros [H1 | H1] [H2 | H2] Hpre.
    + by eapply IHl.
    + destruct (left_right_apart code b1 b2); [by eapply tree_codes_prefix.. |]. done.
    + destruct (left_right_apart code b2 b1); [by eapply tree_codes_prefix.. |]. done.
    + by eapply IHr.
Qed.

Lemma prefix_free_tree_codes (n : HuffmanNode) :
  huffman_tree n -> NoDup (leaves n) -> prefix_free (build_huffman_codes n).
Proof.
  intros Hn Hnd c1 c2 b1 b2 H1 H2 Hne Hpre.
  rewrite build_huffman_codes_eq in H1, H2 by done.
  apply dict_get_elem_of in H1, H2.
  apply Hne. by eapply tree_codes_prefix_same.
Qed.

(** C3: for a frequency table that is not empty, [build_huffman_tree]
    returns a tree and the table [build_huffman_codes] makes from it is
    prefix-free; its keys are the symbols of the frequency table. *)
Theorem huffman_codes_prefix_free (frequency : list (ascii * nat)) :
  frequency <> [] ->
  NoDup frequency.*1 ->
  exists tree,
    build_huffman_tree frequency = Ok tree
    /\ prefix_free (build_huffman_codes tree)
    /\ (build_huffman_codes tree).*1 ≡ₚ frequency.*1.
Proof.
  intros Hne Hnd.
  destruct (build_huffman_tree_ok frequency Hne) as (tree & Htree & Hshape & Hleaves & _).
  assert (Hnd' : NoDup (leaves tree)) by by rewrite Hleaves.
  exists tree. split_and!; [done | by apply prefix_free_tree_codes |].
  by rewrite build_huffman_codes_eq, tree_codes_fst.
Qed.

Lemma huffman_codes_prefix_free_abracadabra :
  let frequency := [("a", 5); ("b", 2); ("r", 2); ("c", 1); ("d", 1)]%char in
  frequency <> [] /\ NoDup frequency.*1
  /\ exists tree,
       build_huffman_tree frequency = Ok tree
       /\ prefix_free (build_huffman_codes tree)
       /\ (build_huffman_codes tree).*1 ≡ₚ frequency.*1.
Proof.
  intros frequency.
  assert (Hne : frequency <> []) by done.
  assert (Hnd : NoDup frequency.*1) by (subst frequency; compute_done).
  split; [exact Hne |]. split; [exact Hnd |].
  exact (huffman_codes_prefix_free frequency Hne Hnd).
Defined.

(** ** Frequency analyzer *)

Lemma dict_set_keys {K V} `{EqDecision K} (d : list (K * V)) (k : K) (v : V) :
  (dict_set d k v).*1 = if decide (k ∈ d.*1) then d.*1 else d.*1 ++ [k].
Proof.
  induction d as [|[k' v'] d IH]; [done |]. cbn.
  destruct (decide (k' = k)) as [-> | Hne]; cbn.
  - destruct (decide (k ∈ k :: d.*1)) as [_ | Hn]; [done |]. destruct Hn. left.
  - rewrite IH.
    destruct (decide (k ∈ d.*1)) as [Hin | Hin];
      destruct (decide (k ∈ k' :: d.*1)) as [Hin' | Hin']; try done.
    + destruct Hin'. by right.
    + apply elem_of_cons in Hin' as [-> | H]; done.
Qed.

Lemma dict_get_is_Some {K V} `{EqDecision K} (d : list (K * V)) (k : K) :
  k ∈ d.*1 -> exists v, dict_get d k = Some v.
Proof.
  induction d as [|[k' v'] d IH]; [by intros ?%elem_of_nil |].
  cbn. intros Hin. case_decide as Hk; [by eexists |].
  apply IH. apply elem_of_cons in Hin as [-> | Hin]; done.
Qed.

Lemma dict_get_set {K V} `{EqDecision K} (d : list (K * V)) (k k' : K) (v : V) :
  dict_get (dict_set d k v) k' = if decide (k = k') then Some v else dict_get d k'.
Proof.
  induction d as [|[k0 v0] d IH]; cbn.
  - done.
  - destruct (decide (k0 = k)) as [-> | Hne]; cbn.
    + by destruct (decide (k = k')).
    + rewrite IH. destruct (decide (k0 = k')) as [-> | ?]; [| done].
      by rewrite decide_False.
Qed.

Lemma frequency_fold_keys (text : list ascii) :
  forall d : list (ascii * nat),
    NoDup d.*1 ->
    let r := fold_left (fun d c => dict_set d c (default 0 (dict_get d c) + 1)) text d in
    NoDup r.*1 /\ forall c, c ∈ r.*1 <-> c ∈ d.*1 \/ c ∈ text.
Proof.
  induction text as [|c0 text IH]; intros d Hnd; cbn.
  - split; [done |]. intros c. rewrite elem_of_nil. tauto.
  - destruct (IH (dict_set d c0 (default 0 (dict_get d c0) + 1))) as [Hnd' Hin'].
    { rewrite dict_set_keys. case_decide as Hc0; [done |].
      apply NoDup_app. split_and!; [done | | apply NoDup_singleton].
      intros x Hx ->%list_elem_of_singleton. done. }
    split; [done |]. intros c. rewrite Hin', dict_set_keys, elem_of_cons.
    case_decide as Hc0.
    + split; [tauto |]. intros [H | [-> | H]]; tauto.
    + rewrite elem_of_app, list_elem_of_singleton. tauto.
Qed.

Lemma build_frequency_dict_keys (text : list ascii) :
  NoDup (build_frequency_dict text).*1
  /\ forall c, c ∈ (build_frequency_dict text).*1 <-> c ∈ text.
Proof.
  destruct (frequency_fold_keys text []) as [Hnd Hin]; [constructor |].
  split; [done |]. intros c. rewrite (Hin c). cbn. rewrite elem_of_nil. tauto.
Qed.

Lemma two_keys {A} (l : list A) (x y : A) : x ∈ l -> y ∈ l -> x <> y -> 1 < length l.
Proof.
  destruct l as [|a [|b l]]; simpl; [by intros ?%elem_of_nil | | lia].
  intros ->%list_elem_of_singleton ->%list_elem_of_singleton. done.
Qed.

(** ** Decoding what was encoded *)

Lemma reverse_fold_get (codes : list (ascii * bits)) :
  forall (d : list (bits * ascii)) b c,
    dict_get (fold_left (fun d '(c, code) => dict_set d code c) codes d) b = Some c ->
    (c, b) ∈ codes \/ dict_get d b = Some c.
Proof.
  induction codes as [|[c0 b0] codes IH]; intros d b c; cbn; [by right |].
  intros [H | H]%IH; [left; by right |].
  rewrite dict_get_set in H. case_decide as Hb; [| by right].
  injection H as <-. subst. left. left.
Qed.

Lemma reverse_fold_is_Some (codes : list (ascii * bits)) :
  forall (d : list (bits * ascii)) b,
    (exists c, (c, b) ∈ codes) \/ is_Some (dict_get d b) ->
    is_Some (dict_get (fold_left (fun d '(c, code) => dict_set d code c) codes d) b).
Proof.
  induction codes as [|[c0 b0] codes IH]; intros d b; cbn.
  - intros [[c H] | H]; [by apply elem_of_nil in H | done].
  - intros H. apply IH. rewrite dict_get_set.
    destruct H as [[c [[= -> ->] | H]%elem_of_cons] | H].
    + right. by rewrite decide_True.
    + left. by exists c.
    + right. case_decide; [done | done].
Qed.

Lemma reverse_codes_get (codes : list (ascii * bits)) (c : ascii) (b : bits) :
  (c, b) ∈ codes -> (forall c', (c', b) ∈ codes -> c' = c) ->
  dict_get (reverse_codes codes) b = Some c.
Proof.
  intros Hin Huniq.
  destruct (reverse_fold_is_Some codes [] b) as [c' Hc']; [left; by exists c |].
  unfold reverse_codes. rewrite Hc'. f_equal.
  apply reverse_fold_get in Hc' as [H | H]; [by apply Huniq | done].
Qed.

Lemma reverse_codes_None (codes : list (ascii * bits)) (b : bits) :
  (forall c, (c, b) ∉ codes) -> dict_get (reverse_codes codes) b = None.
Proof.
  intros Hnone. unfold reverse_codes.
  destruct (dict_get _ b) as [c|] eqn:Hget; [| done].
  apply reverse_fold_get in Hget as [H | H]; [by apply Hnone in H | done].
Qed.

Lemma decode_loop_one_code (rev : list (bits * ascii)) (code : bits) (c : ascii)
    (rest : bits) (out : list ascii) :
  dict_get rev code = Some c ->
  (forall p, p `prefix_of` code -> p <> code -> p <> [] -> dict_get rev p = None) ->
  forall more cur,
    cur ++ more = code -> more <> [] ->
    decode_loop rev (more ++ rest) cur out = decode_loop rev rest [] (out ++ [c]).
Proof.
  intros Hcode Hproper.
  induction more as [|bit more IH]; intros cur Hsplit Hne; [done |].
  cbn [app decode_loop].
  destruct more as [|bit' more].
  - rewrite Hsplit, Hcode. done.
  - rewrite Hproper.
    + apply IH; [by rewrite <- app_assoc | done].
    + exists (bit' :: more). by rewrite <- app_assoc.
    + intros Heq. rewrite <- Hsplit in Heq.
      apply (f_equal length) in Heq. rewrite !length_app in Heq. simpl in Heq. lia.
    + by destruct cur.
Qed.

Lemma decode_loop_encoded (codes : list (ascii * bits)) :
  decodable codes ->
  forall text parts out,
    for_each (code_of codes) text = Ok parts ->
    decode_loop (reverse_codes codes) (concat parts) [] out = ([], out ++ text).
Proof.
  intros (Hnd & Hnonempty & Hprefix).
  induction text as [|c text IH]; intros parts out Hparts.
  - injection Hparts as <-. cbn. by rewrite app_nil_r.
  - rewrite for_each_cons in Hparts.
    apply bind_Ok in Hparts as (code & Hcode & Hparts).
    apply bind_Ok in Hparts as (parts' & Hparts' & [= <-]).
    unfold code_of in Hcode.
    destruct (dict_get codes c) as [code'|] eqn:Hget; [| done].
    injection Hcode as ->. apply dict_get_elem_of in Hget.
    cbn [concat].
    rewrite (decode_loop_one_code _ code c).
    + rewrite (IH parts' (out ++ [c]) Hparts'). by rewrite <- app_assoc.
    + apply reverse_codes_get; [done |].
      intros c' Hc'. by apply (Hprefix c' code c code).
    + intros p Hp Hne Hnil. apply reverse_codes_None. intros c' Hc'.
      assert (c' = c) as -> by by apply (Hprefix c' p c code).
      apply Hne.
      apply (dict_get_NoDup _ _ _ Hnd) in Hc', Hget. congruence.
    + done.
    + by eapply Hnonempty.
Qed.

Lemma decode_text_encode_text (codes : list (ascii * bits)) (text : list ascii)
    (encoded_text : bits) :
  decodable codes ->
  encode_text text codes = Ok encoded_text ->
  decode_text encoded_text codes = Ok text.
Proof.
  intros Hcodes Henc. unfold encode_text in Henc.
  apply bind_Ok in Henc as (parts & Hparts & [= <-]).
  unfold decode_text. by rewrite (decode_loop_encoded codes Hcodes text parts []).
Qed.

Lemma encode_text_ok (codes : list (ascii * bits)) (text : list ascii) :
  (forall c, c ∈ text -> c ∈ codes.*1) ->
  exists encoded_text, encode_text text codes = Ok encoded_text.
Proof.
  intros Hkeys. unfold encode_text.
  assert (exists parts, for_each (code_of codes) text = Ok parts) as [parts ->].
  { induction text as [|c text IH]; [by exists [] |].
    destruct (dict_get_is_Some codes c) as [code Hcode]; [apply Hkeys; left |].
    destruct IH as [parts Hparts]; [intros c' Hc'; apply Hkeys; by right |].
    exists (code :: parts).
    assert (Hc : code_of codes c = Ok code) by (unfold code_of; by rewrite Hcode).
    by rewrite for_each_cons, Hc, Ok_bind, Hparts. }
  by eexists.
Qed.

(** The table of a tree with a merged root is one [decode_text] inverts. *)
Lemma decodable_tree_codes (root : HuffmanNode) :
  huffman_tree root -> NoDup (leaves root) -> char root = None ->
  decodable (build_huffman_codes root).
Proof.
  intros Hshape Hnd Hchar. rewrite build_huffman_codes_eq by done.
  split_and!.
  - by rewrite tree_codes_fst.
  - destruct Hshape as [c f | f l r Hl Hr]; [done |].
    intros c b. cbn [tree_codes]. rewrite app_nil_l, elem_of_app.
    intros [H | H]; apply tree_codes_prefix in H as [x ->]; by destruct x.
  - intros c1 b1 c2 b2. by apply tree_codes_prefix_same.
Qed.

(** ** The sample table codec reads back what it writes *)

Lemma plain_parse_code (code : bits) :
  forall c pre rest acc,
    plain_parse ((bit_byte <$> code) ++ ";"%byte :: rest) (Some (c, pre)) acc
    = plain_parse rest None (acc ++ [(c, pre ++ code)]).
Proof.
  induction code as [|b code IH]; intros c pre rest acc.
  - cbn. by rewrite app_nil_r.
  - rewrite fmap_cons. cbn [app plain_parse].
    destruct b; cbn [bit_byte Byte.eqb]; cbn; rewrite IH, <- app_assoc; done.
Qed.

Lemma plain_parse_entries (codes : list (ascii * bits)) :
  forall rest acc,
    plain_parse (plain_to_bytes codes ++ rest) None acc
    = plain_parse rest None (acc ++ codes).
Proof.
  induction codes as [|[c code] codes IH]; intros rest acc.
  - cbn. by rewrite app_nil_r.
  - unfold plain_to_bytes. rewrite fmap_cons. cbn [concat].
    fold (plain_to_bytes codes). unfold plain_entry. cbn [fst snd].
    rewrite <- !app_assoc. cbn [app plain_parse].
    rewrite ascii_of_byte_of_ascii. rewrite <- app_assoc. cbn [app].
    rewrite plain_parse_code, IH, <- app_assoc. done.
Qed.

Lemma plain_codec_reads_back : codec_reads_back plain_codec.
Proof.
  intros codes _. cbn.
  rewrite <- (app_nil_r (plain_to_bytes codes)), plain_parse_entries. done.
Qed.

(** ** Round trip *)

Lemma to_bytes4_big_ok (n : N) :
  (n < 2 ^ 32)%N -> exists prefix, to_bytes4_big n = Ok prefix.
Proof. intros Hn. unfold to_bytes4_big. rewrite decide_True by done. by eexists. Qed.

(** The round trip of the text: a text with at least two different
    characters is compressed to a container that decompresses to the same
    text, whenever the serialized code table is shorter than 2^32 bytes; a
    longer table makes [compress_file] raise OverflowError. *)
Lemma round_trip_two_symbols `{C : TableCodec} (text : list ascii) (c1 c2 : ascii) :
  codec_reads_back C ->
  c1 ∈ text -> c2 ∈ text -> c1 <> c2 ->
  (exists tree,
     build_huffman_tree (build_frequency_dict text) = Ok tree
     /\ let size := N.of_nat (length (table_to_bytes (build_huffman_codes tree))) in
        ((size < 2 ^ 32)%N -> round_trip C text)
        /\ (~ (size < 2 ^ 32)%N -> compress_file text = Raise OverflowError))
  /\ ~ round_trip C [].
Proof.
  intros Hback Hc1 Hc2 Hne. split; [| by intros (container & H & _)].
  destruct (build_frequency_dict_keys text) as [Hnd Hkeys].
  destruct (build_huffman_tree_ok (build_frequency_dict text))
    as (root & Htree & Hshape & Hleaves & Hchar).
  { intros Hnil. apply Hkeys in Hc1. rewrite Hnil in Hc1. by apply elem_of_nil in Hc1. }
  assert (Hroot : char root = None).
  { apply Hchar. rewrite <- (length_fmap fst).
    apply (two_keys _ c1 c2); [by apply Hkeys | by apply Hkeys | done]. }
  assert (Hnd' : NoDup (leaves root)) by by rewrite Hleaves.
  pose proof (decodable_tree_codes root Hshape Hnd' Hroot) as Hdec.
  destruct (encode_text_ok (build_huffman_codes root) text) as [encoded Henc].
  { intros c Hc. rewrite build_huffman_codes_eq, tree_codes_fst, Hleaves by done.
    by apply Hkeys. }
  destruct (get_byte_array_aligned _ (pad_encoded_text_aligned encoded))
    as (byte_array & Hbytes & Hcat & _).
  exists root. split; [done |]. split.
  - intros Hfit.
    destruct (to_bytes4_big_ok _ Hfit) as [prefix Hprefix].
    destruct (from_to_bytes4_big _ _ Hprefix) as (Hlen & Hval & _).
    exists (prefix ++ table_to_bytes (build_huffman_codes root) ++ byte_array). split.
    + unfold compress_file. cbv zeta.
      by rewrite Htree, Ok_bind, Henc, Ok_bind, Hbytes, Ok_bind, Hprefix.
    + unfold decompress_file. rewrite (read_container_layout _ _ _ Hlen Hval).
      rewrite (Hback _ (proj1 Hdec)), Ok_bind, Hcat.
      rewrite remove_padding_pad_encoded_text, Ok_bind.
      by apply decode_text_encode_text.
  - intros Hbig. unfold compress_file. cbv zeta.
    by rewrite Htree, Ok_bind, Henc, Ok_bind, Hbytes, Ok_bind, to_bytes4_big_raises.
Qed.

Lemma round_trip_aaab :
  let text := ["a"; "a"; "a"; "b"]%char in
  codec_reads_back plain_codec
  /\ "a"%char ∈ text /\ "b"%char ∈ text /\ "a"%char <> "b"%char
  /\ round_trip plain_codec text.
Proof.
  intros text.
  assert (Ha : "a"%char ∈ text) by (subst text; compute_done).
  assert (Hb : "b"%char ∈ text) by (subst text; compute_done).
  assert (Hab : "a"%char <> "b"%char) by done.
  split; [exact plain_codec_reads_back |]. do 3 (split; [done |]).
  destruct (round_trip_two_symbols (C := plain_codec) text _ _
              plain_codec_reads_back Ha Hb Hab) as [(tree & Htree & Hfit & _) _].
  vm_compute in Htree. injection Htree as <-.
  apply Hfit. reflexivity.
Qed.

(** The empty text has no container, and the text 'aaa' is compressed to a
    container that decompresses to the empty text. *)
Lemma round_trip_fails :
  ~ round_trip plain_codec []
  /\ ~ round_trip plain_codec ["a"; "a"; "a"]%char
  /\ compress_file (C := plain_codec) [] = Raise IndexError
  /\ (compress_file (C := plain_codec) ["a"; "a"; "a"]%char
        ≫= decompress_file (C := plain_codec)) = Ok [].
Proof.
  split_and!; try reflexivity.
  - by intros (container & H & _).
  - intros (container & Hc & Hd).
    vm_compute in Hc. injection Hc as <-. vm_compute in Hd. discriminate.
Qed.

(** The single-symbol case for any table codec: a text that repeats one
    character is compressed with the empty code, and its container
    decompresses to the empty text. *)
Lemma build_frequency_dict_replicate (c : ascii) (n : nat) :
  build_frequency_dict (replicate (S n) c) = [(c, S n)].
Proof.
  unfold build_frequency_dict. cbn [replicate fold_left dict_set dict_get default].
  change (0 + 1) with 1.
  assert (forall m k,
             fold_left (fun d c => dict_set d c (default 0 (dict_get d c) + 1))
                       (replicate m c) [(c, k)] = [(c, k + m)]) as Hfold.
  { induction m as [|m IH]; intros k; cbn [replicate fold_left].
    - by rewrite Nat.add_0_r.
    - cbn [dict_set dict_get]. rewrite !decide_True by done. cbn [default].
      rewrite IH. by rewrite <- Nat.add_assoc. }
  by rewrite Hfold.
Qed.

Lemma single_symbol_text_lost `{C : TableCodec} (c : ascii) (n : nat) :
  codec_reads_back C ->
  (N.of_nat (length (table_to_bytes [(c, []) : ascii * bits])) < 2 ^ 32)%N ->
  (compress_file (replicate (S n) c) ≫= decompress_file) = Ok [].
Proof.
  intros Hback Hfit.
  destruct (to_bytes4_big_ok _ Hfit) as [prefix Hprefix].
  destruct (from_to_bytes4_big _ _ Hprefix) as (Hlen & Hval & _).
  assert (Henc : encode_text (replicate (S n) c) [(c, [])] = Ok []).
  { unfold encode_text.
    assert (forall m, for_each (code_of [(c, [])]) (replicate m c)
                      = Ok (replicate m [])) as ->.
    { induction m as [|m IH]; [done |].
      cbn [replicate]. rewrite for_each_cons, IH.
      unfold code_of. cbn [dict_get]. by rewrite decide_True. }
    rewrite Ok_bind. f_equal. generalize (S n). by induction n0. }
  unfold compress_file. cbv zeta. rewrite build_frequency_dict_replicate.
  destruct (single_entry_code_is_empty_aux c (S n)) as (Htree & Hcodes).
  assert (Hbytes : get_byte_array (pad_encoded_text []) = Ok ["008"; "000"]%byte)
    by reflexivity.
  rewrite Htree, Ok_bind, Hcodes, Henc, Ok_bind, Hbytes, Ok_bind.
  unfold bits in *. rewrite Hprefix, Ok_bind.
  rewrite ?Ok_bind.
  unfold decompress_file. rewrite (read_container_layout _ _ _ Hlen Hval).
  rewrite Hback; [done |]. cbn. apply NoDup_singleton.
Qed.

(** ** Round trip of the bytes of a file *)

Lemma universal_newlines_no_CR (s : list ascii) :
  CR ∉ s -> universal_newlines s = s.
Proof.
  induction s as [|c s IH]; [done |]. intros Hs.
  apply not_elem_of_cons in Hs as [Hc Hs]. cbn [universal_newlines].
  rewrite decide_False by done. by rewrite IH.
Qed.

Lemma write_newlines_posix (s : list ascii) : write_newlines [LF] s = s.
Proof.
  unfold write_newlines. induction s as [|c s IH]; [done |].
  cbn. cbn in IH. rewrite IH. by destruct (decide (c = LF)) as [-> | ?].
Qed.

(** Where the file is read and written unchanged: on a platform whose line
    separator is '\n', a file that decodes to a text without '\r' that
    encodes to the same bytes. *)
Lemma text_io_posix `{E : TextEnv} (file : list byte) (text : list ascii) :
  linesep = [LF] ->
  text_decode file = Ok text -> text_encode text = Ok file -> CR ∉ text ->
  read_text file = Ok text /\ write_text text = Ok file.
Proof.
  intros Hsep Hdec Henc Hcr. unfold read_text, write_text.
  rewrite Hdec, Ok_bind, universal_newlines_no_CR by done.
  by rewrite Hsep, write_newlines_posix.
Qed.

(** C1, as the code has it: when the text-mode read of the bytes of a file
    gives a text with at least two different characters, and the text-mode
    write of that text gives the same bytes, [compress_file] returns a
    container whenever the serialized code table is shorter than 2^32
    bytes, and raises OverflowError otherwise, and [decompress_file] on the
    container writes the bytes of the file. When the text read is empty,
    [compress_file] raises IndexError. *)
Theorem round_trip_file `{E : TextEnv} `{C : TableCodec}
    (file : list byte) (text : list ascii) (c1 c2 : ascii) :
  codec_reads_back C ->
  read_text file = Ok text -> write_text text = Ok file ->
  c1 ∈ text -> c2 ∈ text -> c1 <> c2 ->
  (exists tree,
     build_huffman_tree (build_frequency_dict text) = Ok tree
     /\ let size := N.of_nat (length (table_to_bytes (build_huffman_codes tree))) in
        ((size < 2 ^ 32)%N -> round_trip_io E C file)
        /\ (~ (size < 2 ^ 32)%N -> compress_file_io file = Raise OverflowError))
  /\ (forall empty : list byte,
         read_text empty = Ok [] -> compress_file_io empty = Raise IndexError).
Proof.
  intros Hback Hread Hwrite Hc1 Hc2 Hne. split.
  - destruct (round_trip_two_symbols text c1 c2 Hback Hc1 Hc2 Hne)
      as [(tree & Htree & Hfit & Hbig) _].
    exists tree. split; [done |]. split.
    + intros Hsize. destruct (Hfit Hsize) as (container & Hcompress & Hdecompress).
      exists container. unfold compress_file_io, decompress_file_io.
      by rewrite Hread, Ok_bind, Hcompress, Hdecompress, Ok_bind.
    + intros Hsize. unfold compress_file_io.
      by rewrite Hread, Ok_bind, (Hbig Hsize).
  - intros empty Hempty. unfold compress_file_io. by rewrite Hempty.
Qed.

Lemma round_trip_file_aaab :
  let file := ["a"; "a"; "a"; "b"]%byte in
  let text := ["a"; "a"; "a"; "b"]%char in
  codec_reads_back plain_codec
  /\ read_text (E := ascii_posix) file = Ok text
  /\ write_text (E := ascii_posix) text = Ok file
  /\ "a"%char ∈ text /\ "b"%char ∈ text /\ "a"%char <> "b"%char
  /\ round_trip_io ascii_posix plain_codec file.
Proof.
  intros file text.
  assert (Ha : "a"%char ∈ text) by (subst text; compute_done).
  assert (Hb : "b"%char ∈ text) by (subst text; compute_done).
  assert (Hab : "a"%char <> "b"%char) by done.
  assert (Hread : read_text (E := ascii_posix) file = Ok text) by reflexivity.
  assert (Hwrite : write_text (E := ascii_posix) text = Ok file) by reflexivity.
  split; [exact plain_codec_reads_back |]. do 5 (split; [done |]).
  destruct (round_trip_file (E := ascii_posix) (C := plain_codec) file text _ _
              plain_codec_reads_back Hread Hwrite Ha Hb Hab)
    as [(tree & Htree & Hfit & _) _].
  vm_compute in Htree. injection Htree as <-.
  apply Hfit. reflexivity.
Defined.

(** C1, as stated, fails, on the bytes of a file: the empty file has no
    container; a byte that the encoding does not decode makes
    [compress_file] raise; the file 'a\r\nb' is read as 'a\nb' and comes
    back as 'a\nb', and the file '\r\n\r\n' comes back empty; the file
    'aaa' comes back empty. *)
Lemma round_trip_file_fails :
  let compress := compress_file_io (E := ascii_posix) (C := plain_codec) in
  let decompress := decompress_file_io (E := ascii_posix) (C := plain_codec) in
  compress [] = Raise IndexError
  /\ compress ["255"]%byte = Raise UnicodeDecodeError
  /\ read_text (E := ascii_posix) ["a"; "013"; "010"; "b"]%byte
     = Ok ["a"; "010"; "b"]%char
  /\ (compress ["a"; "013"; "010"; "b"]%byte ≫= decompress)
     = Ok ["a"; "010"; "b"]%byte
  /\ (compress ["013"; "010"; "013"; "010"]%byte ≫= decompress) = Ok []
  /\ (compress ["a"; "a"; "a"]%byte ≫= decompress) = Ok []
  /\ ~ round_trip_io ascii_posix plain_codec []
  /\ ~ round_trip_io ascii_posix plain_codec ["255"]%byte
  /\ ~ round_trip_io ascii_posix plain_codec ["a"; "013"; "010"; "b"]%byte
  /\ ~ round_trip_io ascii_posix plain_codec ["013"; "010"; "013"; "010"]%byte
  /\ ~ round_trip_io ascii_posix plain_codec ["a"; "a"; "a"]%byte.
Proof.
  intros compress decompress. subst compress decompress.
  split_and!; try reflexivity.
  - by intros (container & H & _).
  - by intros (container & H & _).
  - intros (container & Hc & Hd).
    vm_compute in Hc. injection Hc as <-. vm_compute in Hd. discriminate.
  - intros (container & Hc & Hd).
    vm_compute in Hc. injection Hc as <-. vm_compute in Hd. discriminate.
  - intros (container & Hc & Hd).
    vm_compute in Hc. injection Hc as <-. vm_compute in Hd. discriminate.
Qed.

(* ================================================================== *)
(** * Further properties of the codec functions *)

(** ** heapq keeps the heap order *)

Ltac halves :=
  repeat match goal with
    | |- context [?a / 2] =>
        lazymatch goal with
        | _ : a = 2 * (a / 2) + a mod 2 |- _ => fail
        | _ => pose proof (Nat.div_mod_eq a 2);
               pose proof (Nat.mod_upper_bound a 2 ltac:(lia))
        end
    | _ : context [?a / 2] |- _ =>
        lazymatch goal with
        | _ : a = 2 * (a / 2) + a mod 2 |- _ => fail
        | _ => pose proof (Nat.div_mod_eq a 2);
               pose proof (Nat.mod_upper_bound a 2 ltac:(lia))
        end
    end.

Ltac hlia := halves; lia.

Lemma key_insert (heap : list HuffmanNode) (j i : nat) (x : HuffmanNode) :
  j < length heap ->
  key (<[j := x]> heap) i = if decide (i = j) then freq x else key heap i.
Proof.
  intros Hj. unfold key. case_decide as Hi.
  - subst. by rewrite list_lookup_insert_eq.
  - by rewrite list_lookup_insert_ne.
Qed.

Lemma key_lookup (heap : list HuffmanNode) (i : nat) (x : HuffmanNode) :
  heap !! i = Some x -> key heap i = freq x.
Proof. intros H. unfold key. by rewrite H. Qed.

Lemma below_le (s pos : nat) : below s pos -> s <= pos.
Proof. induction 1 as [|pos Hpos _ IH]; [done |]. hlia. Qed.

Lemma below_parent (s pos : nat) :
  below s pos -> s < pos -> 0 < pos /\ below s ((pos - 1) / 2).
Proof. destruct 1 as [|pos Hpos Hb]; [lia | done]. Qed.

Lemma below_0 (pos : nat) : below 0 pos.
Proof.
  induction pos as [pos IH] using lt_wf_ind.
  destruct (decide (pos = 0)) as [-> | Hpos]; [constructor |].
  apply below_child; [lia |]. apply IH. hlia.
Qed.


Lemma up_inv_step (s pos : nat) (heap : list HuffmanNode) (x p : HuffmanNode) :
  pos < length heap -> s < pos -> below s pos ->
  key heap pos = freq x -> key heap ((pos - 1) / 2) = freq p -> freq x <= freq p ->
  up_inv s pos heap ->
  up_inv s ((pos - 1) / 2) (<[(pos - 1) / 2 := x]> (<[pos := p]> heap)).
Proof.
  intros Hlen Hs Hbelow Hx Hp Hxp [I1 I2].
  destruct (below_parent s pos Hbelow Hs) as [Hpos Hbp].
  pose proof (below_le _ _ Hbp) as Hsp.
  set (pp := (pos - 1) / 2) in *.
  assert (Hpp : pp < pos) by (subst pp; hlia).
  assert (Hkey : forall j,
             key (<[pp := x]> (<[pos := p]> heap)) j
             = if decide (j = pp) then freq x
               else if decide (j = pos) then freq p else key heap j).
  { intros j. rewrite key_insert by (rewrite length_insert; lia).
    case_decide; [done |]. by rewrite key_insert. }
  assert (Hgrand : s < pp -> key heap ((pp - 1) / 2) <= key heap pp).
  { intros Hspp. destruct (below_parent s pp Hbp Hspp) as [Hpp0 Hbpp].
    apply below_le in Hbpp. apply I1; [lia | done | lia]. }
  split.
  - intros i Hi Hsi Hne. rewrite !length_insert in Hi. rewrite !Hkey.
    rewrite (decide_False (P := i = pp)) by done.
    destruct (decide (i = pos)) as [-> | Hipos].
    + fold pp. rewrite decide_True by done. done.
    + destruct (decide ((i - 1) / 2 = pp)) as [Hpar | Hpar].
      * etrans; [exact Hxp |]. rewrite <- Hp, <- Hpar. by apply I1.
      * destruct (decide ((i - 1) / 2 = pos)) as [Hpar' | Hpar'].
        -- rewrite <- Hp. by apply I2.
        -- by apply I1.
  - intros c Hc Hpar Hspp. rewrite !length_insert in Hc. rewrite !Hkey.
    assert (Hgp : (pp - 1) / 2 < pp) by hlia.
    rewrite (decide_False (P := (pp - 1) / 2 = pp)) by lia.
    rewrite (decide_False (P := (pp - 1) / 2 = pos)) by lia.
    rewrite (decide_False (P := c = pp)) by hlia.
    destruct (decide (c = pos)) as [-> | Hcpos].
    + rewrite <- Hp. by apply Hgrand.
    + etrans; [by apply Hgrand |]. rewrite <- Hpar.
      apply I1; [done | lia | done].
Qed.
Lemma siftdown_loop_order (fuel : nat) :
  forall heap s pos x,
    pos < length heap -> pos <= s + fuel -> below s pos ->
    up_inv s pos (<[pos := x]> heap) ->
    exists heap',
      siftdown_loop fuel heap s pos x = Ok heap' /\ heap_from s heap'.
Proof.
  induction fuel as [|fuel IH]; intros heap s pos x Hpos Hfuel Hbelow Hinv;
    cbn [siftdown_loop]; pose proof (below_le _ _ Hbelow) as Hsle;
    case_decide as Hs.
  - lia.
  - rewrite setitem_lt by done. eexists. split; [done |].
    intros i Hi Hsi. apply Hinv; [done | done | hlia].
  - destruct (below_parent s pos Hbelow Hs) as [Hpos0 Hbp].
    assert (Hparent : (pos - 1) / 2 < pos) by hlia.
    destruct (getitem_lt heap ((pos - 1) / 2)) as (parent & Hlook & ->); [lia |].
    rewrite Ok_bind.
    assert (Hkx : key (<[pos := x]> heap) pos = freq x).
    { rewrite key_insert by done. by rewrite decide_True. }
    assert (Hkp : key (<[pos := x]> heap) ((pos - 1) / 2) = freq parent).
    { rewrite key_insert by done. rewrite decide_False by lia. by apply key_lookup. }
    unfold node_lt. destruct (freq x <? freq parent) eqn:Hlt.
    + apply Nat.ltb_lt in Hlt.
      rewrite setitem_lt, Ok_bind by done.
      apply IH; [rewrite length_insert; lia | lia | done |].
      replace (<[(pos - 1) / 2 := x]> (<[pos := parent]> heap))
        with (<[(pos - 1) / 2 := x]> (<[pos := parent]> (<[pos := x]> heap)))
        by by rewrite list_insert_insert_eq.
      apply up_inv_step; [by rewrite length_insert | done | done | done | done | lia |
                          done].
    + apply Nat.ltb_ge in Hlt.
      rewrite setitem_lt by done. eexists. split; [done |].
      intros i Hi Hsi. destruct (decide (i = pos)) as [-> | Hne].
      * rewrite Hkx, Hkp. done.
      * by apply Hinv.
  - rewrite setitem_lt by done. eexists. split; [done |].
    intros i Hi Hsi. apply Hinv; [done | done | hlia].
Qed.

Lemma siftdown_order (heap : list HuffmanNode) (s pos : nat) :
  pos < length heap -> below s pos -> up_inv s pos heap ->
  exists heap', siftdown heap s pos = Ok heap' /\ heap_from s heap'.
Proof.
  intros Hpos Hbelow Hinv. unfold siftdown.
  destruct (getitem_lt heap pos Hpos) as (newitem & Hlook & ->). rewrite Ok_bind.
  apply siftdown_loop_order; [done | lia | done |].
  by rewrite list_insert_id.
Qed.

Lemma siftup_loop_order (s : nat) (fuel : nat) :
  forall heap endpos pos childpos,
    endpos = length heap -> pos < endpos -> childpos = 2 * pos + 1 ->
    endpos <= childpos + fuel -> below s pos -> down_inv s pos heap ->
    exists heap' pos',
      siftup_loop fuel heap endpos pos childpos = Ok (heap', pos')
      /\ pos' < length heap' /\ length heap' = length heap
      /\ length heap' <= 2 * pos' + 1
      /\ below s pos' /\ down_inv s pos' heap'.
Proof.
  induction fuel as [|fuel IH];
    intros heap endpos pos childpos Hend Hpos Hchild Hfuel Hbelow Hinv;
    cbn [siftup_loop]; case_decide as Hc.
  - lia.
  - exists heap, pos. split_and!; try done; lia.
  - pose proof (below_le _ _ Hbelow) as Hsle. destruct Hinv as [Ia Ib].
    assert (exists c,
               (if decide (childpos + 1 < endpos)
                then c0 ← getitem heap childpos;
                     r ← getitem heap (childpos + 1);
                     Ok (if negb (node_lt c0 r) then childpos + 1 else childpos)
                else Ok childpos) = Ok c
               /\ childpos <= c <= childpos + 1 /\ c < endpos
               /\ forall i, 0 < i < endpos -> (i - 1) / 2 = pos ->
                            key heap c <= key heap i) as (c & -> & Hlo & Hhi & Hmin).
    { case_decide as Hr.
      - destruct (getitem_lt heap childpos) as (c0 & Hc0 & ->); [lia |].
        destruct (getitem_lt heap (childpos + 1)) as (r & Hr0 & ->); [lia |].
        rewrite !Ok_bind. eexists. split; [done |].
        apply key_lookup in Hc0, Hr0.
        unfold node_lt. destruct (freq c0 <? freq r) eqn:Hlt; cbn [negb].
        + apply Nat.ltb_lt in Hlt. split_and!; [lia | lia | lia |].
          intros i Hi Hpar.
          assert (i = childpos \/ i = childpos + 1) as [-> | ->] by hlia; lia.
        + apply Nat.ltb_ge in Hlt. split_and!; [lia | lia | lia |].
          intros i Hi Hpar.
          assert (i = childpos \/ i = childpos + 1) as [-> | ->] by hlia; lia.
      - exists childpos. split; [done |]. split_and!; [lia | lia | lia |].
        intros i Hi Hpar. assert (i = childpos) as -> by hlia. done. }
    rewrite Ok_bind.
    destruct (getitem_lt heap c) as (child & Hlook & ->); [lia |].
    rewrite Ok_bind, setitem_lt, Ok_bind by lia.
    assert (Hcpar : (c - 1) / 2 = pos) by hlia.
    assert (Hkey : forall j, key (<[pos := child]> heap) j
                             = if decide (j = pos) then key heap c else key heap j).
    { intros j. rewrite key_insert by lia. case_decide; [| done].
      symmetry. by apply key_lookup. }
    destruct (IH (<[pos := child]> heap) endpos c (2 * c + 1))
      as (heap' & pos' & -> & Hpos' & Hlen & Hleaf & Hbelow' & Hinv');
      [by rewrite length_insert | lia | lia | lia | | |].
    + apply below_child; [lia |]. by rewrite Hcpar.
    + split.
      * intros i Hi Hsi Hic Hpc. rewrite length_insert in Hi. rewrite !Hkey.
        destruct (decide (i = pos)) as [-> | Hipos].
        -- rewrite decide_False by hlia. apply Ib; [lia | done | hlia].
        -- destruct (decide ((i - 1) / 2 = pos)) as [Hpar | Hpar].
           ++ apply Hmin; [lia | done].
           ++ apply Ia; done.
      * intros c' Hc' Hpar Hsc. rewrite length_insert in Hc'. rewrite !Hkey.
        rewrite Hcpar, decide_True by done.
        rewrite decide_False by hlia.
        rewrite <- Hpar. apply Ia; [done | lia | hlia | hlia].
    + exists heap', pos'. rewrite length_insert in Hlen. split_and!; try done.
  - exists heap, pos. split_and!; try done; lia.
Qed.

Lemma siftup_order (heap : list HuffmanNode) (pos : nat) :
  pos < length heap -> heap_from (S pos) heap ->
  exists heap', siftup heap pos = Ok heap' /\ heap_from pos heap'.
Proof.
  intros Hpos Hheap. unfold siftup.
  destruct (getitem_lt heap pos Hpos) as (newitem & Hlook & ->). rewrite Ok_bind.
  destruct (siftup_loop_order pos (length heap) heap (length heap) pos (2 * pos + 1))
    as (heap1 & pos1 & -> & Hpos1 & Hlen1 & Hleaf & Hbelow & [Ia Ib]);
    [done | done | done | lia | constructor | |].
  { split.
    - intros i Hi Hsi Hne Hpar. apply Hheap; [done | lia].
    - intros c Hc Hpar Hlt. lia. }
  rewrite Ok_bind. cbn beta iota.
  rewrite setitem_lt, Ok_bind by done.
  apply siftdown_order; [by rewrite length_insert | done |].
  split.
  - intros i Hi Hsi Hne. rewrite length_insert in Hi.
    rewrite !key_insert by done.
    rewrite (decide_False (P := i = pos1)) by done.
    rewrite decide_False by hlia. apply Ia; [lia | done | done | hlia].
  - intros c Hc Hpar Hlt. rewrite length_insert in Hc. hlia.
Qed.

Lemma heapify_loop_order (m : nat) :
  forall heap,
    2 * m <= length heap -> heap_from m heap ->
    exists heap',
      for_fold siftup (rev (seq 0 m)) heap = Ok heap'
      /\ heap_from 0 heap' /\ heap' ≡ₚ heap.
Proof.
  induction m as [|m IH]; intros heap Hm Hheap.
  - exists heap. done.
  - rewrite seq_S, rev_app_distr. change (0 + m) with m. cbn [rev app for_fold].
    destruct (siftup_order heap m) as (heap1 & Hsift & Hord); [lia | done |].
    destruct (siftup_ok heap m) as (heap1' & Hsift' & Hperm); [lia |].
    rewrite Hsift' in Hsift. injection Hsift as ->.
    rewrite Hsift', Ok_bind.
    destruct (IH heap1) as (heap' & -> & Hord' & Hperm');
      [rewrite Hperm; lia | done |].
    exists heap'. split_and!; [done | done | by rewrite Hperm'].
Qed.

Lemma heap_root_least (heap : list HuffmanNode) (i : nat) :
  heap_from 0 heap -> i < length heap -> key heap 0 <= key heap i.
Proof.
  intros Hheap. induction i as [i IH] using lt_wf_ind. intros Hi.
  destruct (decide (i = 0)) as [-> | Hne]; [done |].
  etrans; [apply (IH ((i - 1) / 2)) |]; [hlia | hlia |].
  apply Hheap; lia.
Qed.

Lemma heap_from_app (heap : list HuffmanNode) (x : HuffmanNode) (k : nat) :
  heap_from k (heap ++ [x]) -> heap_from k heap.
Proof.
  intros Hheap i Hi Hk.
  assert (Hp : (i - 1) / 2 < length heap) by hlia.
  unfold heap_from in Hheap. specialize (Hheap i).
  rewrite length_app in Hheap. cbn [length] in Hheap.
  unfold key in *. rewrite !lookup_app_l in Hheap by lia.
  apply Hheap; [lia | done].
Qed.

Lemma key_app_l (heap : list HuffmanNode) (x : HuffmanNode) (i : nat) :
  i < length heap -> key (heap ++ [x]) i = key heap i.
Proof. intros Hi. unfold key. by rewrite lookup_app_l. Qed.

Lemma heappush_order (heap : list HuffmanNode) (item : HuffmanNode) :
  heap_from 0 heap ->
  exists heap',
    heappush heap item = Ok heap' /\ heap_from 0 heap' /\ heap' ≡ₚ item :: heap.
Proof.
  intros Hheap.
  destruct (heappush_ok heap item) as (heap' & Hpush & Hperm).
  exists heap'. split_and!; [done | | done].
  unfold heappush in Hpush.
  destruct (siftdown_order (heap ++ [item]) 0 (length (heap ++ [item]) - 1))
    as (heap'' & Hsift & Hord).
  - rewrite length_app. cbn [length]. lia.
  - apply below_0.
  - rewrite length_app. cbn [length].
    replace (length heap + 1 - 1) with (length heap) by lia. split.
    + intros i Hi _ Hne. rewrite length_app in Hi. cbn [length] in Hi.
      assert ((i - 1) / 2 < length heap) by hlia.
      rewrite !key_app_l by lia. apply Hheap; lia.
    + intros c Hc Hpar _. rewrite length_app in Hc. cbn [length] in Hc. hlia.
  - rewrite Hpush in Hsift. by injection Hsift as ->.
Qed.

Lemma heap_from_nil (k : nat) : heap_from k [].
Proof. intros i Hi. simpl in Hi. lia. Qed.

Lemma heappop_order (heap : list HuffmanNode) :
  heap_from 0 heap -> heap <> [] ->
  exists item heap',
    heappop heap = Ok (item, heap')
    /\ heap_from 0 heap'
    /\ heap ≡ₚ item :: heap'
    /\ heap !! 0 = Some item
    /\ forall y, y ∈ heap -> freq item <= freq y.
Proof.
  intros Hheap Hne.
  assert (Hleast : forall item, heap !! 0 = Some item ->
                                forall y, y ∈ heap -> freq item <= freq y).
  { intros item H0 y Hy. apply list_elem_of_lookup in Hy as [i Hi].
    rewrite <- (key_lookup _ _ _ H0), <- (key_lookup _ _ _ Hi).
    apply heap_root_least; [done |]. by eapply lookup_lt_Some. }
  destruct (heappop_ok heap Hne) as (item & heap' & Hpop & Hperm).
  exists item, heap'. pose proof Hpop as Hpop0. unfold heappop in Hpop.
  destruct (list_pop_ok heap Hne) as (lastelt & heap1 & Hlp & Hheap1).
  rewrite Hlp, Ok_bind in Hpop.
  destruct heap1 as [|returnitem rest].
  - injection Hpop as <- <-. subst heap.
    split_and!; [done | apply heap_from_nil | done | done | by apply Hleast].
  - cbn [getitem lookup list_lookup] in Hpop. rewrite Ok_bind in Hpop.
    rewrite setitem_lt, Ok_bind in Hpop by (simpl; lia).
    cbn [insert list_insert] in Hpop.
    destruct (siftup_order (lastelt :: rest) 0) as (heap'' & Hsift & Hord).
    + simpl. lia.
    + intros i Hi Hk. cbn [length] in Hi.
      assert (Hsame : forall j, 0 < j < S (length rest) ->
                 key (lastelt :: rest) j = key heap j).
      { intros j Hj. subst heap. unfold key. destruct j as [|j]; [lia |].
        rewrite <- app_comm_cons.
        change ((lastelt :: rest) !! S j) with (rest !! j).
        change ((returnitem :: (rest ++ [lastelt])) !! S j)
          with ((rest ++ [lastelt]) !! j).
        by rewrite lookup_app_l by lia. }
      rewrite !Hsame by hlia. apply Hheap; [| lia].
      subst heap. rewrite length_app. cbn [length]. lia.
    + rewrite Hsift, Ok_bind in Hpop. injection Hpop as <- <-.
      assert (H0 : heap !! 0 = Some returnitem) by by subst heap.
      split_and!; [done | done | done | done | by apply Hleast].
Qed.

Lemma heapify_order (x : list HuffmanNode) :
  exists heap, heapify x = Ok heap /\ heap_from 0 heap /\ heap ≡ₚ x.
Proof.
  unfold heapify. apply heapify_loop_order; [hlia |].
  intros i Hi Hk. hlia.
Qed.

Lemma merge_loop_inv (P : HuffmanNode -> Prop) :
  (forall l r, P l -> P r -> freq l <= freq r ->
               P (mkNode None (freq l + freq r) (Some l) (Some r))) ->
  forall fuel priority_queue,
    Forall P priority_queue -> heap_from 0 priority_queue ->
    priority_queue <> [] -> length priority_queue <= S fuel ->
    exists root,
      merge_loop fuel priority_queue = Ok [root]
      /\ P root
      /\ leaf_entries root ≡ₚ priority_queue ≫= leaf_entries.
Proof.
  intros Hmerge. induction fuel as [|fuel IH]; intros pq Hall Hheap Hne Hlen.
  - destruct pq as [|t [|t' pq]]; [done | | simpl in Hlen; lia].
    exists t. rewrite Forall_singleton in Hall. rewrite merge_loop_single.
    split_and!; [done | done |]. cbn. by rewrite app_nil_r.
  - cbn [merge_loop]. case_decide as Htwo.
    + destruct (heappop_order pq Hheap Hne) as (l & pq1 & -> & Hheap1 & Hp1 & _ & Hleast).
      rewrite Ok_bind.
      assert (Hne1 : pq1 <> []).
      { intros ->. apply Permutation_length in Hp1. simpl in Hp1. lia. }
      destruct (heappop_order pq1 Hheap1 Hne1) as (r & pq2 & -> & Hheap2 & Hp2 & _ & _).
      rewrite Ok_bind.
      set (merged := mkNode None (freq l + freq r) (Some l) (Some r)).
      destruct (heappush_order pq2 merged Hheap2) as (pq3 & -> & Hheap3 & Hp3).
      rewrite Ok_bind.
      assert (Hlr : freq l <= freq r).
      { apply Hleast. rewrite Hp1, Hp2. right. left. }
      rewrite Hp1, Hp2 in Hall.
      apply Forall_cons in Hall as [Hl Hall]. apply Forall_cons in Hall as [Hr Hall].
      assert (Hmerged : P merged) by by apply Hmerge.
      assert (Hleaves : pq3 ≫= leaf_entries ≡ₚ pq ≫= leaf_entries).
      { rewrite Hp3, Hp1, Hp2. cbn. by rewrite !(assoc_L (++)). }
      assert (Hlen3 : S (length pq3) = length pq).
      { rewrite Hp3, Hp1, Hp2. done. }
      destruct (IH pq3) as (root & -> & Hroot & Hl3).
      { rewrite Hp3. by constructor. }
      { done. }
      { intros ->. apply Permutation_length in Hp3. done. }
      { lia. }
      exists root. split_and!; [done | done | by rewrite Hl3].
    + destruct pq as [|t [|t' pq]]; [done | | simpl in Htwo; lia].
      exists t. rewrite Forall_singleton in Hall.
      split_and!; [done | done |]. cbn. by rewrite app_nil_r.
Qed.

Lemma build_huffman_tree_merge_tree (frequency : list (ascii * nat)) :
  frequency <> [] ->
  exists root,
    build_huffman_tree frequency = Ok root
    /\ merge_tree root
    /\ leaf_entries root ≡ₚ frequency.
Proof.
  intros Hne. unfold build_huffman_tree.
  set (pq0 := (fun '(c, f) => new_node (Some c) f) <$> frequency).
  assert (Hall0 : Forall merge_tree pq0).
  { subst pq0. apply Forall_fmap, Forall_forall. intros [c f] _. constructor. }
  assert (Hleaves0 : pq0 ≫= leaf_entries = frequency).
  { subst pq0. clear. induction frequency as [|[c f] fr IH]; [done |].
    cbn. f_equal. apply IH. }
  destruct (heapify_order pq0) as (pq1 & -> & Hheap1 & Hp1). rewrite Ok_bind.
  destruct (merge_loop_inv merge_tree (fun l r => merge_node l r) (length pq1) pq1)
    as (root & -> & Hroot & Hl).
  { by rewrite Hp1. }
  { done. }
  { intros ->. apply Permutation_length in Hp1. subst pq0.
    rewrite length_fmap in Hp1. destruct frequency; done. }
  { lia. }
  rewrite Ok_bind. exists root. split_and!; [done | done |].
  by rewrite Hl, Hp1, Hleaves0.
Qed.


(** ** Frequency analyzer: counts and order *)

Lemma dict_get_None {K V} `{EqDecision K} (d : list (K * V)) (k : K) :
  dict_get d k = None <-> k ∉ d.*1.
Proof.
  split.
  - intros Hget Hin. destruct (dict_get_is_Some d k Hin) as [v Hv]. congruence.
  - intros Hin. destruct (dict_get d k) as [v|] eqn:Hget; [| done].
    destruct Hin. apply dict_get_elem_of in Hget.
    apply list_elem_of_fmap. by exists (k, v).
Qed.

Lemma frequency_fold_count (text : list ascii) :
  forall (d : list (ascii * nat)) c,
    default 0 (dict_get
                 (fold_left (fun d c => dict_set d c (default 0 (dict_get d c) + 1))
                            text d) c)
    = default 0 (dict_get d c) + count_char c text.
Proof.
  induction text as [|x text IH]; intros d c; cbn [fold_left count_char]; [lia |].
  rewrite IH, dict_get_set. destruct (decide (x = c)) as [-> | Hne]; cbn; lia.
Qed.

(** X1: the frequency table has one entry per distinct character of the
    text, and the count stored for a character is the number of its
    occurrences; a character that does not occur has no entry. *)
Theorem build_frequency_dict_counts (text : list ascii) :
  NoDup (build_frequency_dict text).*1
  /\ forall c,
       dict_get (build_frequency_dict text) c
       = if decide (c ∈ text) then Some (count_char c text) else None.
Proof.
  destruct (build_frequency_dict_keys text) as [Hnd Hkeys].
  split; [done |]. intros c.
  pose proof (frequency_fold_count text [] c) as Hcount. cbn in Hcount.
  fold (build_frequency_dict text) in Hcount.
  case_decide as Hin.
  - apply Hkeys in Hin. destruct (dict_get_is_Some _ _ Hin) as [n Hn].
    rewrite Hn in Hcount |- *. cbn in Hcount. by rewrite Hcount.
  - apply dict_get_None. by rewrite Hkeys.
Qed.

Lemma dict_set_total (d : list (ascii * nat)) (c : ascii) :
  sum_list (dict_set d c (default 0 (dict_get d c) + 1)).*2 = sum_list d.*2 + 1.
Proof.
  induction d as [|[k n] d IH]; [done |].
  cbn [dict_set dict_get]. destruct (decide (k = c)) as [-> | Hne].
  - cbn. lia.
  - cbn [fmap list_fmap snd sum_list sum_list_with] in *. cbn. cbn in IH. rewrite IH. lia.
Qed.

Lemma build_frequency_dict_total_aux (text : list ascii) :
  sum_list (build_frequency_dict text).*2 = length text.
Proof.
  unfold build_frequency_dict.
  assert (forall d : list (ascii * nat),
             sum_list (fold_left (fun d c => dict_set d c (default 0 (dict_get d c) + 1))
                                 text d).*2
             = sum_list d.*2 + length text) as Hfold.
  { induction text as [|x text IH]; intros d; cbn [fold_left length]; [lia |].
    rewrite IH, dict_set_total. lia. }
  by rewrite Hfold.
Qed.

(** X3: the counts of the frequency table add up to the length of the
    text. *)
Theorem build_frequency_dict_total (text : list ascii) :
  sum_list (build_frequency_dict text).*2 = length text.
Proof. apply build_frequency_dict_total_aux. Qed.

Lemma frequency_fold_order (text : list ascii) :
  forall d : list (ascii * nat),
    (fold_left (fun d c => dict_set d c (default 0 (dict_get d c) + 1)) text d).*1
    = d.*1 ++ filter (fun y => y ∉ d.*1) (first_occurrences text).
Proof.
  induction text as [|x text IH]; intros d; cbn [fold_left first_occurrences].
  - by rewrite filter_nil, app_nil_r.
  - rewrite IH, dict_set_keys. rewrite filter_cons.
    destruct (decide (x ∈ d.*1)) as [Hin | Hin].
    + rewrite decide_False by (intros H; by apply H). f_equal.
      rewrite list_filter_filter. apply list_filter_iff.
      intros y. split; [| by intros [? ?]]. intros Hy. split; [done |]. by intros ->.
    + rewrite decide_True by done. rewrite <- app_assoc. cbn [app]. do 2 f_equal.
      rewrite list_filter_filter. apply list_filter_iff.
      intros y. cbn beta. rewrite elem_of_app, list_elem_of_singleton. tauto.
Qed.

(** X2: the keys of the frequency table are the distinct characters of the
    text in the order of their first occurrence (the order in which
    [build_huffman_tree] puts the leaves on the heap). *)
Theorem build_frequency_dict_order (text : list ascii) :
  (build_frequency_dict text).*1 = first_occurrences text.
Proof.
  unfold build_frequency_dict. rewrite frequency_fold_order. cbn [fmap list_fmap app].
  generalize (first_occurrences text). intros l.
  induction l as [|y l IH]; [done |].
  rewrite filter_cons_True by apply not_elem_of_nil. by rewrite IH.
Qed.

(** ** Tree builder: weights and order of the children *)

Lemma merge_tree_weight (root : HuffmanNode) :
  merge_tree root -> freq root = sum_list (leaf_entries root).*2.
Proof.
  induction 1 as [c f | l r Hl IHl Hr IHr Hle]; cbn [leaf_entries freq].
  - cbn. lia.
  - rewrite app_nil_l, fmap_app, sum_list_with_app. lia.
Qed.

Lemma merge_tree_huffman_tree (root : HuffmanNode) :
  merge_tree root -> huffman_tree root.
Proof. induction 1; by constructor. Qed.

Lemma leaf_entries_fst (n : HuffmanNode) : (leaf_entries n).*1 = leaves n.
Proof.
  induction n as [c f l r IHl IHr] using HuffmanNode_children_ind.
  cbn [leaf_entries leaves]. rewrite !fmap_app. f_equal; [by destruct c |].
  f_equal.
  - destruct l; [apply IHl | done].
  - destruct r; [apply IHr | done].
Qed.

(** X8: for a frequency table that is not empty, [build_huffman_tree]
    returns a tree whose leaves carry exactly the entries of the table; the
    weight of each merged node is the sum of the weights of its children,
    its left child is not heavier than its right child, and the root weighs
    the sum of all counts. *)
Theorem build_huffman_tree_merges (frequency : list (ascii * nat)) :
  frequency <> [] ->
  exists root,
    build_huffman_tree frequency = Ok root
    /\ merge_tree root
    /\ leaf_entries root ≡ₚ frequency
    /\ freq root = sum_list frequency.*2.
Proof.
  intros Hne.
  destruct (build_huffman_tree_merge_tree frequency Hne) as (root & Hroot & Htree & Hl).
  exists root. split_and!; [done | done | done |].
  by rewrite (merge_tree_weight root Htree), Hl.
Qed.

(** X9: the root of the tree built from a text that is not empty weighs the
    length of the text, and each character of the text is the character of
    exactly one leaf. *)
Theorem huffman_tree_weighs_text (text : list ascii) :
  text <> [] ->
  exists root,
    build_huffman_tree (build_frequency_dict text) = Ok root
    /\ freq root = length text
    /\ forall c, count_char c (leaves root) = if decide (c ∈ text) then 1 else 0.
Proof.
  intros Hne.
  destruct (build_frequency_dict_keys text) as [Hnd Hkeys].
  destruct (build_huffman_tree_merge_tree (build_frequency_dict text))
    as (root & Hroot & Htree & Hl).
  { intros Hnil. destruct text as [|c text]; [done |].
    assert (Hc : c ∈ (build_frequency_dict (c :: text)).*1) by (apply Hkeys; left).
    rewrite Hnil in Hc. by apply elem_of_nil in Hc. }
  exists root. split_and!; [done | |].
  - by rewrite (merge_tree_weight root Htree), Hl, build_frequency_dict_total_aux.
  - intros c.
    assert (Hleaves : leaves root ≡ₚ (build_frequency_dict text).*1).
    { by rewrite <- leaf_entries_fst, Hl. }
    assert (Hnd' : NoDup (leaves root)) by by rewrite Hleaves.
    assert (Hin : c ∈ leaves root <-> c ∈ text) by by rewrite Hleaves.
    rewrite <- (decide_ext (c ∈ leaves root) (c ∈ text)) by done.
    clear -Hnd'. induction (leaves root) as [|x l IH]; [done |].
    apply NoDup_cons in Hnd' as [Hx Hnd']. cbn [count_char]. rewrite IH by done.
    destruct (decide (x = c)) as [-> | Hne];
      destruct (decide (c ∈ l)) as [Hc | Hc];
      match goal with |- context [decide (?y ∈ ?z :: l)] =>
        destruct (decide (y ∈ z :: l)) as [Hc' | Hc'] end;
      first [ done
            | by destruct Hc'; left
            | by destruct Hc'; right
            | by apply elem_of_cons in Hc' as [-> | ?] ].
Qed.

(** ** Code table: lengths of the codes *)

Lemma huffman_tree_has_leaf (n : HuffmanNode) : huffman_tree n -> 1 <= length (leaves n).
Proof.
  induction 1 as [c f | f l r Hl IHl Hr IHr]; cbn [leaves]; [simpl; lia |].
  rewrite app_nil_l, length_app. lia.
Qed.

Lemma tree_codes_length (n : HuffmanNode) :
  huffman_tree n ->
  forall code c b,
    (c, b) ∈ tree_codes n code -> length b + 1 <= length code + length (leaves n).
Proof.
  induction 1 as [c0 f | f l r Hl IHl Hr IHr]; intros code c b; cbn [tree_codes leaves].
  - rewrite !app_nil_r. intros [= -> ->]%list_elem_of_singleton. simpl. lia.
  - rewrite !app_nil_l, elem_of_app, length_app.
    pose proof (huffman_tree_has_leaf l Hl). pose proof (huffman_tree_has_leaf r Hr).
    intros [H1 | H1]; [apply IHl in H1 | apply IHr in H1];
      rewrite length_app in H1; simpl in H1; lia.
Qed.

(** X10: for a frequency table of n >= 2 symbols every code of the table has
    at least 1 and at most n - 1 bits. *)
Theorem huffman_code_lengths (frequency : list (ascii * nat)) :
  1 < length frequency ->
  NoDup frequency.*1 ->
  exists tree,
    build_huffman_tree frequency = Ok tree
    /\ forall c code,
         dict_get (build_huffman_codes tree) c = Some code ->
         1 <= length code <= length frequency - 1.
Proof.
  intros Hlen Hnd.
  destruct (build_huffman_tree_ok frequency) as (tree & Htree & Hshape & Hleaves & Hchar).
  { intros ->. simpl in Hlen. lia. }
  assert (Hnd' : NoDup (leaves tree)) by by rewrite Hleaves.
  exists tree. split; [done |]. intros c code Hget.
  pose proof (decodable_tree_codes tree Hshape Hnd' (Hchar Hlen)) as (_ & Hnonempty & _).
  apply dict_get_elem_of in Hget. split.
  - apply Hnonempty in Hget. destruct code; [done | simpl; lia].
  - rewrite build_huffman_codes_eq in Hget by done.
    apply (tree_codes_length tree Hshape) in Hget.
    rewrite Hleaves, length_fmap in Hget. simpl in Hget. lia.
Qed.

Lemma kraft_sum_app (D : nat) (codes1 codes2 : list (ascii * bits)) :
  kraft_sum D (codes1 ++ codes2) = kraft_sum D codes1 + kraft_sum D codes2.
Proof. unfold kraft_sum. by rewrite fmap_app, sum_list_with_app. Qed.

Lemma tree_codes_nonempty (n : HuffmanNode) (code : bits) :
  huffman_tree n -> exists c b, (c, b) ∈ tree_codes n code.
Proof.
  intros Hn. revert code. induction Hn as [c f | f l r Hl IHl Hr IHr]; intros code.
  - exists c, code. cbn. left.
  - destruct (IHl (code ++ [false])) as (c & b & H). exists c, b.
    cbn [tree_codes]. rewrite app_nil_l, elem_of_app. by left.
Qed.

Lemma kraft_sum_tree_codes (D : nat) (n : HuffmanNode) :
  huffman_tree n ->
  forall code,
    (forall c b, (c, b) ∈ tree_codes n code -> length b <= D) ->
    kraft_sum D (tree_codes n code) = 2 ^ (D - length code).
Proof.
  induction 1 as [c f | f l r Hl IHl Hr IHr]; intros code Hbound.
  - cbn. lia.
  - cbn [tree_codes] in Hbound |- *. rewrite app_nil_l in Hbound |- *.
    rewrite kraft_sum_app, IHl, IHr.
    + destruct (tree_codes_nonempty l (code ++ [false]) Hl) as (c & b & Hin).
      pose proof (tree_codes_prefix _ _ _ _ Hin) as [x ->].
      assert (Hb : length ((code ++ [false]) ++ x) <= D).
      { apply (Hbound c). apply elem_of_app. by left. }
      rewrite !length_app in Hb |- *. simpl in Hb |- *.
      replace (D - length code) with (S (D - (length code + 1))) by lia.
      rewrite Nat.pow_succ_r'. lia.
    + intros c b Hin. apply (Hbound c). apply elem_of_app. by right.
    + intros c b Hin. apply (Hbound c). apply elem_of_app. by left.
Qed.

(** X11: the code table wastes no code space: scaled by [2 ^ D], for any [D]
    that bounds the code lengths, the Kraft sum of the table is exactly
    [2 ^ D]. *)
Theorem huffman_codes_kraft (frequency : list (ascii * nat)) (D : nat) :
  frequency <> [] ->
  NoDup frequency.*1 ->
  exists tree,
    build_huffman_tree frequency = Ok tree
    /\ ((forall c code, (c, code) ∈ build_huffman_codes tree -> length code <= D) ->
        kraft_sum D (build_huffman_codes tree) = 2 ^ D).
Proof.
  intros Hne Hnd.
  destruct (build_huffman_tree_ok frequency Hne) as (tree & Htree & Hshape & Hleaves & _).
  assert (Hnd' : NoDup (leaves tree)) by by rewrite Hleaves.
  exists tree. split; [done |]. rewrite build_huffman_codes_eq by done.
  intros Hbound. rewrite (kraft_sum_tree_codes D tree Hshape [] Hbound).
  simpl. by rewrite Nat.sub_0_r.
Qed.

(** ** Encoding *)

Lemma for_each_app {A B} (f : A -> result B) (l1 l2 : list A) :
  for_each f (l1 ++ l2)
  = for_each f l1 ≫= fun ys1 => for_each f l2 ≫= fun ys2 => Ok (ys1 ++ ys2).
Proof.
  induction l1 as [|x l1 IH]; cbn [app].
  - cbn [for_each]. rewrite Ok_bind. by destruct (for_each f l2).
  - rewrite !for_each_cons, IH. destruct (f x) as [y|e]; [| done].
    rewrite !Ok_bind. destruct (for_each f l1) as [ys1|e]; [| done].
    rewrite !Ok_bind. by destruct (for_each f l2).
Qed.

Lemma encode_text_app_aux (text1 text2 : list ascii) (codes : list (ascii * bits)) :
  encode_text (text1 ++ text2) codes
  = encode_text text1 codes ≫= fun e1 =>
    encode_text text2 codes ≫= fun e2 => Ok (e1 ++ e2).
Proof.
  unfold encode_text. rewrite for_each_app.
  destruct (for_each (code_of codes) text1) as [ys1|e]; [| done].
  rewrite !Ok_bind. destruct (for_each (code_of codes) text2) as [ys2|e]; [| done].
  rewrite !Ok_bind. by rewrite concat_app.
Qed.

(** X13: encoding distributes over concatenation of texts, errors
    included. *)
Theorem encode_text_app (text1 text2 : list ascii) (codes : list (ascii * bits)) :
  encode_text (text1 ++ text2) codes
  = encode_text text1 codes ≫= fun e1 =>
    encode_text text2 codes ≫= fun e2 => Ok (e1 ++ e2).
Proof. apply encode_text_app_aux. Qed.

Lemma encode_text_only_KeyError (text : list ascii) (codes : list (ascii * bits))
    (e : exn) :
  encode_text text codes = Raise e -> e = KeyError.
Proof.
  unfold encode_text.
  destruct (for_each (code_of codes) text) as [parts|e'] eqn:Hparts; [done |].
  intros [= ->]. revert Hparts. induction text as [|c text IH]; [done |].
  rewrite for_each_cons. destruct (code_of codes c) as [code|e'] eqn:Hc.
  - rewrite Ok_bind. destruct (for_each (code_of codes) text) as [parts|e'']; [done |].
    intros [= <-]. by apply IH.
  - intros [= <-]. unfold code_of in Hc. destruct (dict_get codes c); congruence.
Qed.

(** X12: [encode_text] raises exactly when some character of the text has no
    entry in the code table, and then it raises KeyError; when it returns,
    the number of bits is the sum of the code lengths of the characters. *)
Theorem encode_text_raises_iff (text : list ascii) (codes : list (ascii * bits)) :
  (raises (encode_text text codes) <-> exists c, c ∈ text /\ c ∉ codes.*1)
  /\ (raises (encode_text text codes) -> encode_text text codes = Raise KeyError)
  /\ forall encoded,
       encode_text text codes = Ok encoded ->
       length encoded
       = sum_list ((fun c => length (default [] (dict_get codes c))) <$> text).
Proof.
  assert (Hmissing : (exists c, c ∈ text /\ c ∉ codes.*1) ->
                     raises (encode_text text codes)).
  { intros (c & Hin & Hc). apply list_elem_of_split in Hin as (t1 & t2 & ->).
    rewrite encode_text_app_aux.
    assert (Hc' : code_of codes c = Raise KeyError).
    { unfold code_of. apply dict_get_None in Hc. by rewrite Hc. }
    assert (Hhere : encode_text (c :: t2) codes = Raise KeyError).
    { unfold encode_text. by rewrite for_each_cons, Hc'. }
    rewrite Hhere. destruct (encode_text t1 codes); apply raises_Raise. }
  assert (Hkind : raises (encode_text text codes) ->
                  encode_text text codes = Raise KeyError).
  { intros [e He]. by rewrite He, (encode_text_only_KeyError _ _ _ He). }
  split_and!; [| done |].
  - split; [| done].
    intros [e He].
    destruct (decide (Forall (fun c => c ∈ codes.*1) text)) as [Hall | Hex].
    + destruct (encode_text_ok codes text) as [enc Henc]; [| congruence].
      by apply Forall_forall.
    + apply not_Forall_Exists, Exists_exists in Hex; [| apply _]. done.
  - unfold encode_text. intros encoded H.
    apply bind_Ok in H as (parts & Hparts & [= <-]).
    clear Hmissing Hkind. revert parts Hparts. induction text as [|c text IH]; intros parts Hparts.
    + by injection Hparts as <-.
    + rewrite for_each_cons in Hparts.
      apply bind_Ok in Hparts as (code & Hcode & Hparts).
      apply bind_Ok in Hparts as (parts' & Hparts' & [= <-]).
      unfold code_of in Hcode.
      destruct (dict_get codes c) as [code'|] eqn:Hget; [| done].
      injection Hcode as ->. rewrite fmap_cons. cbn [concat sum_list_with].
      rewrite length_app, (IH parts' Hparts'), Hget. done.
Qed.

(** ** Decoding *)

(** X14: for any code table with one code per symbol, no empty code and no
    code a prefix of the code of another symbol, [decode_text] gives back
    the text [encode_text] encoded, and no bit is left over. *)
Theorem decode_text_inverts_encode_text (codes : list (ascii * bits))
    (text : list ascii) (encoded_text : bits) :
  decodable codes ->
  encode_text text codes = Ok encoded_text ->
  decode_text encoded_text codes = Ok text
  /\ decode_leftover encoded_text codes = [].
Proof.
  intros Hcodes Henc. split; [by apply decode_text_encode_text |].
  unfold encode_text in Henc. apply bind_Ok in Henc as (parts & Hparts & [= <-]).
  unfold decode_leftover. by rewrite (decode_loop_encoded codes Hcodes text parts []).
Qed.

Lemma decode_loop_bounds (rev : list (bits * ascii)) (encoded : bits) :
  forall cur out,
    let r := decode_loop rev encoded cur out in
    length r.2 <= length out + length encoded
    /\ (forall c, c ∈ r.2 ->
                  c ∈ out \/ exists code, code <> [] /\ dict_get rev code = Some c)
    /\ length r.1 <= length cur + length encoded.
Proof.
  induction encoded as [|bit rest IH]; intros cur out; cbn [decode_loop].
  - cbn. split_and!; [lia | by left | lia].
  - destruct (dict_get rev (cur ++ [bit])) as [ch|] eqn:Hget.
    + destruct (IH [] (out ++ [ch])) as (Hlen & Hin & Hcur).
      rewrite length_app in Hlen. cbn in Hlen, Hcur |- *. split_and!; [lia | | lia].
      intros c Hc. apply Hin in Hc as [Hc | Hc]; [| by right].
      apply elem_of_app in Hc as [Hc | ->%list_elem_of_singleton]; [by left |].
      right. exists (cur ++ [bit]). split; [by destruct cur | done].
    + destruct (IH (cur ++ [bit]) out) as (Hlen & Hin & Hcur).
      rewrite length_app in Hcur. cbn in Hlen, Hcur |- *. split_and!; [lia | done | lia].
Qed.

(** X15: [decode_text] returns at most one character per bit, every
    character it returns has a code in the table that is not empty (a
    symbol whose code is empty is never decoded), and the candidate left at
    the end is not longer than the input. *)
Theorem decode_text_bounds (encoded_text : bits) (huffman_codes : list (ascii * bits)) :
  exists text,
    decode_text encoded_text huffman_codes = Ok text
    /\ length text <= length encoded_text
    /\ (forall c, c ∈ text ->
                  exists code, code <> [] /\ (c, code) ∈ huffman_codes)
    /\ length (decode_leftover encoded_text huffman_codes) <= length encoded_text.
Proof.
  destruct (decode_loop_bounds (reverse_codes huffman_codes) encoded_text [] [])
    as (Hlen & Hin & Hcur).
  eexists. split; [reflexivity |]. split_and!; [done | | done].
  intros c Hc. apply Hin in Hc as [Hc | (code & Hne & Hget)];
    [by apply elem_of_nil in Hc |].
  exists code. split; [done |].
  apply reverse_fold_get in Hget as [H | H]; done.
Qed.

Lemma decode_loop_app (rev : list (bits * ascii)) (bits1 bits2 : bits) :
  forall cur out,
    decode_loop rev (bits1 ++ bits2) cur out
    = decode_loop rev bits2 (decode_loop rev bits1 cur out).1
                            (decode_loop rev bits1 cur out).2.
Proof.
  induction bits1 as [|bit bits1 IH]; intros cur out; [done |].
  cbn [app decode_loop]. destruct (dict_get rev (cur ++ [bit])); apply IH.
Qed.

Lemma decode_loop_out (rev : list (bits * ascii)) (encoded : bits) :
  forall cur out,
    decode_loop rev encoded cur out
    = ((decode_loop rev encoded cur []).1, out ++ (decode_loop rev encoded cur []).2).
Proof.
  induction encoded as [|bit rest IH]; intros cur out; cbn [decode_loop].
  - cbn. by rewrite app_nil_r.
  - destruct (dict_get rev (cur ++ [bit])) as [ch|].
    + rewrite (IH [] (out ++ [ch])), (IH [] ([] ++ [ch])). cbn.
      by rewrite <- app_assoc.
    + apply IH.
Qed.

(** X16: when the bits of [bits1] end on a code (nothing is left over),
    decoding [bits1 ++ bits2] is decoding each and joining the texts. *)
Theorem decode_text_app (bits1 bits2 : bits) (huffman_codes : list (ascii * bits)) :
  decode_leftover bits1 huffman_codes = [] ->
  decode_text (bits1 ++ bits2) huffman_codes
  = decode_text bits1 huffman_codes ≫= fun text1 =>
    decode_text bits2 huffman_codes ≫= fun text2 => Ok (text1 ++ text2).
Proof.
  unfold decode_leftover, decode_text. intros Hleft.
  rewrite !Ok_bind, decode_loop_app, Hleft.
  by rewrite decode_loop_out.
Qed.

(** ** Bit unpacker *)

Lemma byte_bits_facts (b : byte) :
  length (byte_bits b) = 8
  /\ int2 (byte_bits b) = Ok (Byte.to_N b)
  /\ (int2 (byte_bits b) ≫= bytearray_item) = Ok b.
Proof. destruct b; split_and!; reflexivity. Qed.

(** X17: [remove_padding] raises exactly on the empty bit-string
    (ValueError, from [int] of the empty string); what it returns is a
    prefix of the bits after the first 8. *)
Theorem remove_padding_raises_iff (padded_encoded_text : bits) :
  (raises (remove_padding padded_encoded_text) <-> padded_encoded_text = [])
  /\ (padded_encoded_text = [] -> remove_padding padded_encoded_text = Raise ValueError)
  /\ forall encoded_text,
       remove_padding padded_encoded_text = Ok encoded_text ->
       encoded_text `prefix_of` drop 8 padded_encoded_text.
Proof.
  split_and!.
  - split.
    + intros [e He]. destruct padded_encoded_text as [|b s]; [done |].
      unfold remove_padding in He. cbn in He. discriminate.
    + intros ->. apply raises_Raise.
  - by intros ->.
  - intros encoded_text H. unfold remove_padding in H.
    apply bind_Ok in H as (k & _ & [= <-]).
    unfold slice_to_neg. destruct (N.to_nat k); apply prefix_take.
Qed.

(** X18: the value of the filler bits does not matter: for a count byte from
    1 to 255 followed by the bits and by that many filler bits of any
    value, [remove_padding] returns the bits. *)
Theorem remove_padding_ignores_filler (count : byte) (encoded_text filler : bits) :
  Byte.to_N count <> 0%N ->
  length filler = N.to_nat (Byte.to_N count) ->
  remove_padding (byte_bits count ++ encoded_text ++ filler) = Ok encoded_text.
Proof.
  intros Hcount Hfiller.
  destruct (byte_bits_facts count) as (Hlen & Hint & _).
  unfold remove_padding.
  rewrite take_app_length' by done. rewrite Hint, Ok_bind.
  rewrite drop_app_length' by done.
  unfold slice_to_neg. destruct (N.to_nat (Byte.to_N count)) as [|k] eqn:Hk; [lia |].
  rewrite length_app, Hfiller.
  replace (length encoded_text + S k - S k) with (length encoded_text) by lia.
  by rewrite take_app_length.
Qed.

(** ** Bit packer: bytes and bits *)

Lemma bytes_bits_inj (bs1 bs2 : list byte) :
  concat (byte_bits <$> bs1) = concat (byte_bits <$> bs2) -> bs1 = bs2.
Proof.
  revert bs2. induction bs1 as [|b1 bs1 IH]; intros [|b2 bs2]; cbn [fmap list_fmap concat].
  - done.
  - intros H. apply (f_equal length) in H. rewrite length_app in H.
    destruct (byte_bits_facts b2) as (Hlen & _). simpl in H. lia.
  - intros H. apply (f_equal length) in H. rewrite length_app in H.
    destruct (byte_bits_facts b1) as (Hlen & _). simpl in H. lia.
  - intros H.
    destruct (byte_bits_facts b1) as (Hlen1 & _ & Hb1).
    destruct (byte_bits_facts b2) as (Hlen2 & _ & Hb2).
    apply app_inj_1 in H as [Hb Hrest]; [| congruence].
    rewrite Hb in Hb1. rewrite Hb1 in Hb2. injection Hb2 as ->.
    f_equal. by apply IH.
Qed.

Lemma length_bytes_bits (bs : list byte) :
  length (concat (byte_bits <$> bs)) = 8 * length bs.
Proof.
  induction bs as [|b bs IH]; [done |].
  rewrite fmap_cons. cbn [concat length]. rewrite length_app, IH.
  destruct (byte_bits_facts b) as (-> & _). lia.
Qed.

(** X19: packing the bits of a byte sequence, 8 per byte and most
    significant first, gives the byte sequence back. *)
Theorem get_byte_array_bytes_bits (byte_array : list byte) :
  get_byte_array (concat (byte_bits <$> byte_array)) = Ok byte_array
  /\ length (concat (byte_bits <$> byte_array)) = 8 * length byte_array.
Proof.
  split; [| apply length_bytes_bits].
  destruct (get_byte_array_aligned (concat (byte_bits <$> byte_array)))
    as (bs & Hbs & Hcat & _).
  { rewrite length_bytes_bits, Nat.mul_comm. apply Nat.Div0.mod_mul. }
  rewrite Hbs. f_equal. by apply bytes_bits_inj.
Qed.

(** X20: a bit-string whose length is a multiple of 8 is packed into one
    byte per 8 bits, and expanding those bytes gives the bit-string back. *)
Theorem bytes_bits_get_byte_array (padded_encoded_text : bits) :
  length padded_encoded_text mod 8 = 0 ->
  exists byte_array,
    get_byte_array padded_encoded_text = Ok byte_array
    /\ concat (byte_bits <$> byte_array) = padded_encoded_text
    /\ length byte_array = length padded_encoded_text / 8.
Proof.
  intros Hmod.
  destruct (get_byte_array_aligned _ Hmod) as (bs & Hbs & Hcat & Hlen).
  exists bs. split_and!; [done | done |].
  rewrite <- Hlen, Nat.mul_comm. by rewrite Nat.div_mul.
Qed.

Lemma packed_payload_aux (encoded_text : bits) :
  exists count rest,
    get_byte_array (pad_encoded_text encoded_text) = Ok (count :: rest)
    /\ Byte.to_N count = N.of_nat (8 - length encoded_text mod 8)
    /\ length rest = length encoded_text / 8 + 1.
Proof.
  destruct (get_byte_array_aligned _ (pad_encoded_text_aligned encoded_text))
    as (bs & Hbs & Hcat & Hlen).
  pose proof (extra_padding_range encoded_text) as Hk.
  destruct (format_08b_count _ Hk) as [Hflen Hfint].
  unfold pad_encoded_text in Hcat, Hlen. unfold extra_padding_of in *.
  set (k := 8 - length encoded_text mod 8) in *.
  rewrite !length_app, Hflen, length_replicate in Hlen.
  destruct bs as [|count rest]; [simpl in Hlen; lia |].
  exists count, rest. split; [done |]. split.
  - rewrite fmap_cons in Hcat. cbn [concat] in Hcat.
    destruct (byte_bits_facts count) as (Hclen & Hcint & _).
    apply app_inj_1 in Hcat as [Hcount _]; [| congruence].
    rewrite Hcount in Hcint. congruence.
  - cbn [length] in Hlen. subst k.
    pose proof (Nat.div_mod_eq (length encoded_text) 8).
    pose proof (Nat.mod_upper_bound (length encoded_text) 8). lia.
Qed.

(** X21: the packed payload of a bit-string starts with the byte of the
    padding count [8 - len mod 8], never 0, and has [len / 8 + 1] more
    bytes. *)
Theorem packed_payload (encoded_text : bits) :
  exists count rest,
    get_byte_array (pad_encoded_text encoded_text) = Ok (count :: rest)
    /\ Byte.to_N count = N.of_nat (8 - length encoded_text mod 8)
    /\ length rest = length encoded_text / 8 + 1.
Proof. apply packed_payload_aux. Qed.

(** ** Container *)

(** X22: a container that [compress_file] returns has 4 bytes of length, the
    table bytes and [len / 8 + 2] payload bytes, [len] being the number of
    bits of the encoded text. *)
Theorem compressed_size `{C : TableCodec} (text : list ascii) (container : list byte) :
  compress_file text = Ok container ->
  exists tree encoded_text,
    build_huffman_tree (build_frequency_dict text) = Ok tree
    /\ encode_text text (build_huffman_codes tree) = Ok encoded_text
    /\ length container
       = 4 + length (table_to_bytes (build_huffman_codes tree))
         + (length encoded_text / 8 + 2).
Proof.
  unfold compress_file. intros H.
  apply bind_Ok in H as (tree & Htree & H).
  apply bind_Ok in H as (encoded & Henc & H).
  apply bind_Ok in H as (byte_array & Hbytes & H).
  apply bind_Ok in H as (prefix & Hprefix & H).
  injection H as <-.
  destruct (from_to_bytes4_big _ _ Hprefix) as (Hlen & _ & _).
  destruct (packed_payload_aux encoded) as (count & rest & Hpacked & _ & Hrest).
  rewrite Hbytes in Hpacked. injection Hpacked as ->.
  exists tree, encoded. split_and!; [done | done |].
  rewrite !length_app, Hlen. cbn [length]. lia.
Qed.

Lemma decode_text_Ok (encoded_text : bits) (huffman_codes : list (ascii * bits)) :
  exists text, decode_text encoded_text huffman_codes = Ok text.
Proof. by eexists. Qed.

Lemma decompress_file_table_ok `{C : TableCodec} (file : list byte)
    (huffman_codes : list (ascii * bits)) :
  table_of_bytes (read_container file).1.2 = Ok huffman_codes ->
  ((read_container file).2 = [] -> decompress_file file = Raise ValueError)
  /\ ((read_container file).2 <> [] -> exists text, decompress_file file = Ok text).
Proof.
  unfold decompress_file.
  destruct (read_container file) as [[n tbl] payload]. cbn [fst snd].
  intros ->. rewrite Ok_bind. split.
  - by intros ->.
  - intros Hpayload. destruct payload as [|b rest]; [done |].
    assert (exists encoded,
               remove_padding (concat (byte_bits <$> b :: rest)) = Ok encoded)
      as [encoded ->].
    { rewrite fmap_cons. cbn [concat]. unfold remove_padding.
      destruct (byte_bits_facts b) as (Hlen & Hint & _).
      rewrite take_app_length' by done. rewrite Hint, Ok_bind. by eexists. }
    rewrite Ok_bind. apply decode_text_Ok.
Qed.

(** X23: on a file whose table bytes are read back as a code table,
    [decompress_file] raises exactly when no byte follows the table
    (ValueError, from [int] of the empty string) or when the text-mode
    write of the decoded text raises; any payload of one byte or more is
    decoded to some text, whatever its bytes. *)
Theorem decompress_file_raises_iff `{E : TextEnv} `{C : TableCodec}
    (file : list byte) (huffman_codes : list (ascii * bits)) (e : exn) :
  table_of_bytes (read_container file).1.2 = Ok huffman_codes ->
  let payload := (read_container file).2 in
  (decompress_file_io file = Raise e
   <-> (payload = [] /\ e = ValueError)
       \/ (exists text, decompress_file file = Ok text /\ write_text text = Raise e))
  /\ (payload <> [] -> exists text, decompress_file file = Ok text).
Proof.
  intros Htable payload.
  destruct (decompress_file_table_ok file huffman_codes Htable) as [Hnone Hsome].
  fold payload in Hnone, Hsome. split; [| done].
  unfold decompress_file_io. destruct (decide (payload = [])) as [Hp | Hp].
  - rewrite (Hnone Hp). split.
    + intros [= <-]. by left.
    + intros [[_ ->] | (text & [=] & _)]. done.
  - destruct (Hsome Hp) as [text Htext]. rewrite Htext, Ok_bind. split.
    + intros Hwrite. right. by exists text.
    + intros [[Hnil _] | (text' & [= <-] & Hwrite)]; done.
Qed.

Lemma from_bytes_big_bound (bs : list byte) :
  forall acc,
    (fold_left (fun acc b => acc * 256 + Byte.to_N b) bs acc
     < (acc + 1) * 256 ^ N.of_nat (length bs))%N.
Proof.
  induction bs as [|b bs IH]; intros acc.
  - cbn. lia.
  - cbn [fold_left length]. rewrite Nat2N.inj_succ, N.pow_succ_r'.
    specialize (IH (acc * 256 + Byte.to_N b)%N).
    pose proof (Byte.to_N_bounded b).
    assert (256 ^ N.of_nat (length bs) <> 0)%N by (apply N.pow_nonzero; lia).
    nia.
Qed.

(** X24: the three reads of [decompress_file] split the file without losing
    or repeating a byte; the declared table length is below 2^32, and when
    it is not smaller than what follows the 4 bytes, the table is all that
    follows and the payload is empty: nothing is raised for a short file. *)
Theorem read_container_split (file : list byte) :
  let codes_length := (read_container file).1.1 in
  let huffman_codes_str := (read_container file).1.2 in
  let payload := (read_container file).2 in
  take 4 file ++ huffman_codes_str ++ payload = file
  /\ codes_length = from_bytes_big (take 4 file)
  /\ (codes_length < 2 ^ 32)%N
  /\ length huffman_codes_str = N.to_nat codes_length `min` (length file - 4)
  /\ (length file - 4 <= N.to_nat codes_length -> payload = []).
Proof.
  unfold read_container. cbn [fst snd]. split_and!.
  - by rewrite !take_drop.
  - done.
  - unfold from_bytes_big.
    pose proof (from_bytes_big_bound (take 4 file) 0) as Hb.
    eapply N.lt_le_trans; [exact Hb |].
    rewrite N.add_0_l, N.mul_1_l.
    change (2 ^ 32)%N with (256 ^ 4)%N. apply N.pow_le_mono_r; [lia |].
    rewrite length_take. lia.
  - rewrite length_take, length_drop. lia.
  - intros Hshort. apply drop_ge. rewrite length_drop. lia.
Qed.

(** ** heapq *)

(** X4: on any list of nodes, heap or not, [heapify] and [heappush] never
    raise and [heappop] raises (IndexError) only on the empty list; the
    three keep the items: the result is a rearrangement of the input, plus
    the pushed item or minus the popped one, which is the first of the
    list. *)
Theorem heapq_keeps_items (heap : list HuffmanNode) (item : HuffmanNode) :
  (exists heap', heapify heap = Ok heap' /\ heap' ≡ₚ heap)
  /\ (exists heap', heappush heap item = Ok heap' /\ heap' ≡ₚ item :: heap)
  /\ (heappop [] = Raise IndexError)
  /\ (heap = [] \/
      exists first heap',
        heappop heap = Ok (first, heap')
        /\ heap !! 0 = Some first /\ heap ≡ₚ first :: heap').
Proof.
  split_and!; [apply heapify_ok | apply heappush_ok | done |].
  destruct heap as [|first rest]; [by left | right].
  destruct (heappop_ok (first :: rest)) as (item' & heap' & Hpop & Hperm); [done |].
  exists item', heap'. split_and!; [done | | done].
  unfold heappop in Hpop.
  destruct (list_pop_ok (first :: rest)) as (lastelt & heap1 & Hlp & Hheap1); [done |].
  rewrite Hlp, Ok_bind in Hpop. destruct heap1 as [|returnitem rest1].
  - injection Hpop as <- <-. by injection Hheap1 as -> ->.
  - cbn [getitem lookup list_lookup] in Hpop. rewrite Ok_bind in Hpop.
    apply bind_Ok in Hpop as (h & _ & Hpop). apply bind_Ok in Hpop as (h' & _ & Hpop).
    injection Hpop as <- <-. by injection Hheap1 as -> ->.
Qed.

(** X5: [heapify] turns any list of nodes into a heap: in the result no
    node weighs less than its parent. *)
Theorem heapify_heap (x : list HuffmanNode) :
  exists heap, heapify x = Ok heap /\ heap_from 0 heap /\ heap ≡ₚ x.
Proof. apply heapify_order. Qed.

(** X6: [heappush] on a heap gives a heap that holds the old items and the
    new one. *)
Theorem heappush_heap (heap : list HuffmanNode) (item : HuffmanNode) :
  heap_from 0 heap ->
  exists heap',
    heappush heap item = Ok heap' /\ heap_from 0 heap' /\ heap' ≡ₚ item :: heap.
Proof. apply heappush_order. Qed.

(** X7: [heappop] on a heap that is not empty returns an item of least
    weight and leaves a heap of the other items. *)
Theorem heappop_least (heap : list HuffmanNode) :
  heap_from 0 heap -> heap <> [] ->
  exists item heap',
    heappop heap = Ok (item, heap')
    /\ heap_from 0 heap'
    /\ heap ≡ₚ item :: heap'
    /\ forall y, y ∈ heap -> freq item <= freq y.
Proof.
  intros Hheap Hne.
  destruct (heappop_order heap Hheap Hne) as (item & heap' & H1 & H2 & H3 & _ & H5).
  by exists item, heap'.
Qed.

Lemma compress_text_raises_iff `{C : TableCodec} (text : list ascii) (e : exn) :
  compress_file text = Raise e
  <-> (text = [] /\ e = IndexError)
      \/ (e = OverflowError
          /\ exists tree,
               build_huffman_tree (build_frequency_dict text) = Ok tree
               /\ ~ (N.of_nat (length (table_to_bytes (build_huffman_codes tree)))
                     < 2 ^ 32)%N).
Proof.
  destruct text as [|c0 text].
  - split.
    + intros H. left. split; [done |]. cbn in H. by injection H as <-.
    + intros [[_ ->] | (_ & tree & Htree & _)]; [done | discriminate].
  - set (txt := c0 :: text).
    destruct (build_frequency_dict_keys txt) as [Hnd Hkeys].
    destruct (build_huffman_tree_ok (build_frequency_dict txt))
      as (root & Htree & Hshape & Hleaves & _).
    { intros Hnil. assert (Hc : c0 ∈ (build_frequency_dict txt).*1)
        by (apply Hkeys; left).
      rewrite Hnil in Hc. by apply elem_of_nil in Hc. }
    assert (Hnd' : NoDup (leaves root)) by by rewrite Hleaves.
    destruct (encode_text_ok (build_huffman_codes root) txt) as [encoded Henc].
    { intros c Hc. rewrite build_huffman_codes_eq, tree_codes_fst, Hleaves by done.
      by apply Hkeys. }
    destruct (get_byte_array_aligned _ (pad_encoded_text_aligned encoded))
      as (byte_array & Hbytes & _).
    unfold compress_file. cbv zeta.
    rewrite Htree, Ok_bind, Henc, Ok_bind, Hbytes, Ok_bind.
    destruct (decide (N.of_nat (length (table_to_bytes (build_huffman_codes root)))
                      < 2 ^ 32)%N) as [Hfit | Hbig].
    + destruct (to_bytes4_big_ok _ Hfit) as [prefix ->]. rewrite Ok_bind. split; [done |].
      intros [[[=] _] | (_ & tree & [= <-] & Hbig)]. done.
    + rewrite to_bytes4_big_raises by done. split.
      * intros [= <-]. right. split; [done |]. by exists root.
      * by intros [[[=] _] | (-> & _)].
Qed.

(** X25: [compress_file] raises the error of the text-mode read when the
    bytes of the file are not decoded, IndexError when the text read is
    empty, OverflowError when the serialized table has 2^32 bytes or more,
    and nothing else: once the text is read, neither the KeyError of
    [encode_text] nor the ValueError of [get_byte_array] is raised. *)
Theorem compress_file_raises_iff `{E : TextEnv} `{C : TableCodec}
    (file : list byte) (e : exn) :
  compress_file_io file = Raise e
  <-> text_decode file = Raise e
      \/ (read_text file = Ok [] /\ e = IndexError)
      \/ (e = OverflowError
          /\ exists text tree,
               read_text file = Ok text
               /\ build_huffman_tree (build_frequency_dict text) = Ok tree
               /\ ~ (N.of_nat (length (table_to_bytes (build_huffman_codes tree)))
                     < 2 ^ 32)%N).
Proof.
  unfold compress_file_io, read_text.
  destruct (text_decode file) as [s|e'] eqn:Hdecode.
  - rewrite !Ok_bind, compress_text_raises_iff. split.
    + intros [[Hnil ->] | (-> & tree & Htree & Hbig)].
      * right. left. by rewrite Hnil.
      * right. right. split; [done |]. by exists (universal_newlines s), tree.
    + intros [[=] | [[[= Hnil] ->] | (-> & text & tree & [= <-] & Htree & Hbig)]].
      * by left.
      * right. split; [done |]. by exists tree.
  - rewrite !Raise_bind. split.
    + intros [= <-]. by left.
    + intros [[= <-] | [[[=] _] | (_ & text & tree & [=] & _)]]. done.
Qed.

(** ** The properties above on sample inputs *)

Lemma heap_from_three :
  heap_from 0 [new_node None 1; new_node None 3; new_node None 2].
Proof.
  intros i Hi _. destruct i as [|[|[|i]]]; cbn in *; lia.
Qed.

Lemma heappush_heap_sample :
  let heap := [new_node None 1; new_node None 3] in
  heap_from 0 heap
  /\ exists heap',
       heappush heap (new_node None 2) = Ok heap'
       /\ heap_from 0 heap' /\ heap' ≡ₚ new_node None 2 :: heap.
Proof.
  intros heap.
  assert (Hheap : heap_from 0 heap).
  { intros i Hi _. destruct i as [|[|i]]; cbn in *; lia. }
  split; [exact Hheap |]. exact (heappush_heap heap (new_node None 2) Hheap).
Defined.

Lemma heappop_least_sample :
  let heap := [new_node None 1; new_node None 3; new_node None 2] in
  heap_from 0 heap /\ heap <> []
  /\ exists item heap',
       heappop heap = Ok (item, heap')
       /\ heap_from 0 heap'
       /\ heap ≡ₚ item :: heap'
       /\ forall y, y ∈ heap -> freq item <= freq y.
Proof.
  intros heap.
  assert (Hne : heap <> []) by done.
  split; [exact heap_from_three |]. split; [exact Hne |].
  exact (heappop_least heap heap_from_three Hne).
Defined.

Lemma build_huffman_tree_merges_aaab :
  let frequency := [("a", 3); ("b", 1)]%char in
  frequency <> []
  /\ exists root,
       build_huffman_tree frequency = Ok root
       /\ merge_tree root
       /\ leaf_entries root ≡ₚ frequency
       /\ freq root = sum_list frequency.*2.
Proof.
  intros frequency.
  assert (Hne : frequency <> []) by done.
  split; [exact Hne |]. exact (build_huffman_tree_merges frequency Hne).
Defined.

Lemma huffman_tree_weighs_text_aaab :
  let text := ["a"; "a"; "a"; "b"]%char in
  text <> []
  /\ exists root,
       build_huffman_tree (build_frequency_dict text) = Ok root
       /\ freq root = length text
       /\ forall c, count_char c (leaves root) = if decide (c ∈ text) then 1 else 0.
Proof.
  intros text.
  assert (Hne : text <> []) by done.
  split; [exact Hne |]. exact (huffman_tree_weighs_text text Hne).
Defined.

Lemma huffman_code_lengths_abracadabra :
  let frequency := [("a", 5); ("b", 2); ("r", 2); ("c", 1); ("d", 1)]%char in
  1 < length frequency /\ NoDup frequency.*1
  /\ exists tree,
       build_huffman_tree frequency = Ok tree
       /\ forall c code,
            dict_get (build_huffman_codes tree) c = Some code ->
            1 <= length code <= length frequency - 1.
Proof.
  intros frequency.
  assert (Hlen : 1 < length frequency) by (subst frequency; simpl; lia).
  assert (Hnd : NoDup frequency.*1) by (subst frequency; compute_done).
  split; [exact Hlen |]. split; [exact Hnd |].
  exact (huffman_code_lengths frequency Hlen Hnd).
Defined.

Lemma huffman_codes_kraft_abracadabra :
  let frequency := [("a", 5); ("b", 2); ("r", 2); ("c", 1); ("d", 1)]%char in
  frequency <> [] /\ NoDup frequency.*1
  /\ exists tree,
       build_huffman_tree frequency = Ok tree
       /\ ((forall c code, (c, code) ∈ build_huffman_codes tree -> length code <= 3) ->
           kraft_sum 3 (build_huffman_codes tree) = 2 ^ 3).
Proof.
  intros frequency.
  assert (Hne : frequency <> []) by done.
  assert (Hnd : NoDup frequency.*1) by (subst frequency; compute_done).
  split; [exact Hne |]. split; [exact Hnd |].
  exact (huffman_codes_kraft frequency 3 Hne Hnd).
Defined.

Lemma decodable_ba : decodable [("b", [false]); ("a", [true])]%char.
Proof.
  apply (decodable_tree_codes
           (mkNode None 4 (Some (new_node (Some "b"%char) 1))
                          (Some (new_node (Some "a"%char) 3)))).
  - repeat constructor.
  - compute_done.
  - reflexivity.
Qed.

Lemma decode_text_inverts_encode_text_aaab :
  let codes := [("b", [false]); ("a", [true])]%char in
  let text := ["a"; "a"; "a"; "b"]%char in
  decodable codes
  /\ encode_text text codes = Ok [true; true; true; false]
  /\ decode_text [true; true; true; false] codes = Ok text
  /\ decode_leftover [true; true; true; false] codes = [].
Proof.
  intros codes text.
  split; [exact decodable_ba |]. split; [reflexivity |].
  exact (decode_text_inverts_encode_text codes text [true; true; true; false]
           decodable_ba eq_refl).
Defined.

Lemma decode_text_app_sample :
  let codes := [("b", [false]); ("a", [true])]%char in
  decode_leftover [true; false] codes = []
  /\ decode_text ([true; false] ++ [false; true]) codes
     = decode_text [true; false] codes ≫= fun text1 =>
       decode_text [false; true] codes ≫= fun text2 => Ok (text1 ++ text2).
Proof.
  intros codes. split; [reflexivity |].
  exact (decode_text_app [true; false] [false; true] codes eq_refl).
Defined.

Lemma remove_padding_ignores_filler_sample :
  Byte.to_N "003"%byte <> 0%N
  /\ length [true; false; true] = N.to_nat (Byte.to_N "003"%byte)
  /\ remove_padding (byte_bits "003"%byte ++ [true; true] ++ [true; false; true])
     = Ok [true; true].
Proof.
  assert (Hcount : Byte.to_N "003"%byte <> 0%N) by done.
  split; [exact Hcount |]. split; [reflexivity |].
  exact (remove_padding_ignores_filler "003"%byte [true; true] [true; false; true]
           Hcount eq_refl).
Defined.

Lemma bytes_bits_get_byte_array_sample :
  let padded := [false; true; true; false; false; false; false; true] in
  length padded mod 8 = 0
  /\ exists byte_array,
       get_byte_array padded = Ok byte_array
       /\ concat (byte_bits <$> byte_array) = padded
       /\ length byte_array = length padded / 8.
Proof.
  intros padded. split; [reflexivity |].
  exact (bytes_bits_get_byte_array padded eq_refl).
Defined.

Lemma compressed_size_aaab :
  let text := ["a"; "a"; "a"; "b"]%char in
  let container := (["000"; "000"; "000"; "006"] ++ ["b"; "0"; ";"; "a"; "1"; ";"]
                    ++ ["004"; "224"])%byte in
  compress_file (C := plain_codec) text = Ok container
  /\ exists tree encoded_text,
       build_huffman_tree (build_frequency_dict text) = Ok tree
       /\ encode_text text (build_huffman_codes tree) = Ok encoded_text
       /\ length container
          = 4 + length (plain_to_bytes (build_huffman_codes tree))
            + (length encoded_text / 8 + 2).
Proof.
  intros text container. split; [reflexivity |].
  exact (compressed_size (C := plain_codec) text container eq_refl).
Defined.

Lemma decompress_file_raises_iff_sample :
  let file := (["000"; "000"; "000"; "003"] ++ ["a"; "1"; ";"]
               ++ ["001"; "255"])%byte in
  table_of_bytes (TableCodec := plain_codec) (read_container file).1.2
  = Ok [("a"%char, [true])]
  /\ (decompress_file_io (E := ascii_posix) (C := plain_codec) file
      = Raise UnicodeEncodeError
      <-> ((read_container file).2 = [] /\ UnicodeEncodeError = ValueError)
          \/ (exists text,
                decompress_file (C := plain_codec) file = Ok text
                /\ write_text (E := ascii_posix) text = Raise UnicodeEncodeError))
  /\ ((read_container file).2 <> [] ->
      exists text, decompress_file (C := plain_codec) file = Ok text).
Proof.
  intros file. split; [reflexivity |].
  exact (decompress_file_raises_iff (E := ascii_posix) (C := plain_codec)
           file [("a"%char, [true])] UnicodeEncodeError eq_refl).
Defined.
